(** * A verification development of the zenith-tv M3U parser core
    (src/core/parser/src: parser.rs, categorizer.rs, year_detector.rs,
    episode_detector.rs, category_tree.rs, lib.rs).

    Modelling conventions.
    - A Rust [&str] / [String] is modelled as [list ascii]: the development
      covers ASCII text, where byte indices (used by [find], slicing and
      [as_bytes]) and char indices (used by [chars()]) coincide.  On ASCII,
      Rust's [char::is_whitespace], [str::trim] and [split_whitespace] and
      the regex classes [\s] and [\d] all agree with [is_ws] and [is_digit]
      below.
    - The parser's cursor into [content] is modelled by the remaining suffix
      [content[cursor..]]; [read_line] returns the line and the new suffix.
    - Loops that advance the cursor are given a fuel argument equal to one
      more than the length of the remaining text, which bounds the number of
      iterations ([read_line] always consumes at least one character). *)

From Stdlib Require Import Ascii String List Bool Arith NArith Lia Permutation Sorted.
Import ListNotations.
Open Scope string_scope.
Open Scope nat_scope.
Open Scope list_scope.

(** ** Text helpers *)

Definition str := list ascii.

(** String literals, written as Rocq strings. *)
Definition s (x : string) : str := list_ascii_of_string x.

Definition is_ws (c : ascii) : bool :=
  let n := nat_of_ascii c in
  ((9 <=? n) && (n <=? 13)) || (n =? 32).

Definition is_digit (c : ascii) : bool :=
  let n := nat_of_ascii c in (48 <=? n) && (n <=? 57).

Definition digit_val (c : ascii) : nat := nat_of_ascii c - 48.

Definition ascii_eqb (a b : ascii) : bool := Ascii.eqb a b.

Fixpoint drop_while (p : ascii -> bool) (l : str) : str :=
  match l with
  | [] => []
  | c :: t => if p c then drop_while p t else l
  end.

(** [str::trim_start], [str::trim_end], [str::trim]. *)
Definition trim_start (l : str) : str := drop_while is_ws l.
Definition trim_end (l : str) : str := rev (drop_while is_ws (rev l)).
Definition trim (l : str) : str := trim_start (trim_end l).

(** [str::trim_end_matches(c)]: removes every trailing [c]. *)
Definition trim_end_matches (c : ascii) (l : str) : str :=
  rev (drop_while (ascii_eqb c) (rev l)).

Fixpoint starts_with (p l : str) : bool :=
  match p, l with
  | [], _ => true
  | a :: p', b :: l' => ascii_eqb a b && starts_with p' l'
  | _ :: _, [] => false
  end.

Definition is_empty (l : str) : bool :=
  match l with [] => true | _ => false end.

Definition contains_char (c : ascii) (l : str) : bool :=
  existsb (ascii_eqb c) l.

(** [str::find(pat)] for a substring pattern: first byte index. *)
Fixpoint find_str_from (i : nat) (p l : str) : option nat :=
  if starts_with p l then Some i
  else match l with
       | [] => None
       | _ :: t => find_str_from (S i) p t
       end.
Definition find_str (p l : str) : option nat := find_str_from 0 p l.

(** [str::find(c)] for a character. *)
Definition find_char (c : ascii) (l : str) : option nat := find_str [c] l.

(** [str::rfind(c)]: last byte index of [c]. *)
Fixpoint rfind_from (i : nat) (c : ascii) (l : str) : option nat :=
  match l with
  | [] => None
  | d :: t =>
      match rfind_from (S i) c t with
      | Some j => Some j
      | None => if ascii_eqb c d then Some i else None
      end
  end.
Definition rfind (c : ascii) (l : str) : option nat := rfind_from 0 c l.

(** Slices [l[a..b]], [l[..b]] and [l[a..]]. *)
Definition slice (a b : nat) (l : str) : str := firstn (b - a) (skipn a l).

(** ASCII [to_lowercase]. *)
Definition lower (c : ascii) : ascii :=
  let n := nat_of_ascii c in
  if (65 <=? n) && (n <=? 90) then ascii_of_nat (n + 32) else c.
Definition to_lowercase (l : str) : str := map lower l.

(** [Ord for str]: lexicographic byte comparison. *)
Fixpoint str_cmp (a b : str) : comparison :=
  match a, b with
  | [], [] => Eq
  | [], _ :: _ => Lt
  | _ :: _, [] => Gt
  | x :: a', y :: b' =>
      match Ascii.compare x y with
      | Eq => str_cmp a' b'
      | c => c
      end
  end.

Fixpoint str_eqb (a b : str) : bool :=
  match a, b with
  | [], [] => true
  | x :: a', y :: b' => ascii_eqb x y && str_eqb a' b'
  | _, _ => false
  end.

(** [Vec<String>::contains]. *)
Definition list_contains (l : list str) (x : str) : bool :=
  existsb (str_eqb x) l.

(** [<u32 as FromStr>::from_str]: an optional leading [+], then one or more
    ASCII digits, and a value below 2^32. *)
Fixpoint digits_value (acc : nat) (l : str) : nat :=
  match l with
  | [] => acc
  | c :: t => digits_value (acc * 10 + digit_val c) t
  end.

Definition parse_u32 (l : str) : option nat :=
  let ds := match l with
            | c :: t => if ascii_eqb c "+"%char then t else l
            | [] => l
            end in
  if negb (is_empty ds) && forallb is_digit ds then
    let v := digits_value 0 ds in
    if (N.of_nat v <? 4294967296)%N then Some v else None
  else None.

(** [split_whitespace] and [join(" ")]. *)
Fixpoint split_ws_aux (cur : str) (l : str) : list str :=
  match l with
  | [] => match cur with [] => [] | _ => [rev cur] end
  | c :: t =>
      if is_ws c then
        match cur with
        | [] => split_ws_aux [] t
        | _ => rev cur :: split_ws_aux [] t
        end
      else split_ws_aux (c :: cur) t
  end.
Definition split_whitespace (l : str) : list str := split_ws_aux [] l.

Fixpoint join (sep : str) (ws : list str) : str :=
  match ws with
  | [] => []
  | [w] => w
  | w :: ws' => w ++ sep ++ join sep ws'
  end.

Definition quote : ascii := ascii_of_nat 34.
Definition nul : ascii := ascii_of_nat 0.

Definition is_some {A : Type} (o : option A) : bool :=
  match o with Some _ => true | None => false end.
Definition is_none {A : Type} (o : option A) : bool := negb (is_some o).

(** ** Regex matching

    A pattern is compiled to a matcher that, given the text from a start
    position to the end, returns its captures if the pattern matches there.
    [find_at] is the leftmost search of [Regex::find] / [Regex::captures]:
    it tries every start position from left to right, the end of the text
    included, and returns the first one that matches together with its
    captures. *)
Fixpoint find_at {A : Type} (m : str -> option A) (i : nat) (l : str)
  : option (nat * A) :=
  match m l with
  | Some a => Some (i, a)
  | None =>
      match l with
      | [] => None
      | _ :: t => find_at m (S i) t
      end
  end.

(** ** year_detector.rs *)

(** [YEAR_PATTERN = (19|20)\d{2}] at a start position, returning the
    matched text.  Both alternatives have length two, so the alternation
    needs no backtracking. *)
Definition year_at (l : str) : option str :=
  match l with
  | a :: b :: c :: d :: _ =>
      if ((ascii_eqb a "1"%char && ascii_eqb b "9"%char) || (ascii_eqb a "2"%char && ascii_eqb b "0"%char))
         && is_digit c && is_digit d
      then Some [a; b; c; d] else None
  | _ => None
  end.

Record YearInfo := { year : nat; year_cleaned_title : str }.

Definition is_open_delim (c : ascii) : bool := ascii_eqb c "("%char || ascii_eqb c "["%char.
Definition is_close_delim (c : ascii) : bool := ascii_eqb c ")"%char || ascii_eqb c "]"%char.

Definition detect_year (title : str) : option YearInfo :=
  match find_at year_at 0 title with
  | None => None
  | Some (year_start, year_str) =>
      match parse_u32 year_str with
      | None => None
      | Some y =>
          let year_end := year_start + length year_str in
          let clean_start :=
            if (0 <? year_start) && is_open_delim (nth (year_start - 1) title nul)
            then year_start - 1 else year_start in
          let clean_end :=
            if (year_end <? length title) && is_close_delim (nth year_end title nul)
            then year_end + 1 else year_end in
          let cleaned :=
            (if 0 <? clean_start then firstn clean_start title else [])
            ++ (if clean_end <? length title then skipn clean_end title else []) in
          Some {| year := y;
                  year_cleaned_title := join (s " ") (split_whitespace (trim cleaned)) |}
      end
  end.

(** ** episode_detector.rs *)

Record Episode := { series_name : str; season : nat; episode : nat }.

Definition is_S (c : ascii) : bool := ascii_eqb c "S"%char || ascii_eqb c "s"%char.
Definition is_E (c : ascii) : bool := ascii_eqb c "E"%char || ascii_eqb c "e"%char.

(** The two-digit-else-one-digit lookahead of [detect_episode_manual], read
    from [chars[i+1..]]: [s0 = chars[i+1]] (absent when [i + 1 >= len]) and
    [s1 = chars[i+2]], or ['\0'] when [i + 2 >= len]. *)
Definition lookahead (after : str) : option nat :=
  match after with
  | [] => None
  | s0 :: tl =>
      let s1 := match tl with [] => nul | s1 :: _ => s1 end in
      if is_digit s0 && is_digit s1 then Some (digit_val s0 * 10 + digit_val s1)
      else if is_digit s0 then Some (digit_val s0)
      else None
  end.

(** [while series_name_end > 0 && is_whitespace(chars[series_name_end - 1])
    { series_name_end -= 1 }] *)
Fixpoint back_ws (chars : str) (n : nat) : nat :=
  match n with
  | 0 => 0
  | S m => if is_ws (nth m chars nul) then back_ws chars m else n
  end.

(** The [while i < len] loop, with [rest = chars[i..]].  The result is the
    final [(season, episode, series_name_end)]. *)
Fixpoint manual_scan (chars : str) (i : nat) (rest : str)
  (season episode : option nat) (sne : nat) : option nat * option nat * nat :=
  match rest with
  | [] => (season, episode, sne)
  | ch :: after =>
      let '(season, sne) :=
        if is_none season && is_S ch then
          match lookahead after with
          | Some sv => (Some sv, back_ws chars i)
          | None => (season, sne)
          end
        else (season, sne) in
      if is_some season && is_none episode && is_E ch then
        match lookahead after with
        | Some e => (season, Some e, sne)   (* break *)
        | None => manual_scan chars (S i) after season episode sne
        end
      else manual_scan chars (S i) after season episode sne
  end.

Definition detect_episode_manual (title : str) : option Episode :=
  match manual_scan title 0 title None None 0 with
  | (Some sv, Some e, sne) =>
      let name := if 0 <? sne then trim (firstn sne title) else title in
      Some {| series_name := name; season := sv; episode := e |}
  | _ => None
  end.

(** Regex building blocks.  In every pattern below the classes that follow
    each other ([\s], [\d], a letter, [.]) are disjoint, so a greedy
    repetition that is followed by a failing continuation cannot succeed by
    giving characters back: matching greedily without backtracking is the
    backtracking semantics of the regex crate for these patterns. *)

(** [\s*] *)
Definition skip_ws (l : str) : str := drop_while is_ws l.

(** [(\d{1,2})]: greedy, returns the captured digits and the rest. *)
Definition digits12 (l : str) : option (str * str) :=
  match l with
  | a :: b :: t => if is_digit a then
                     if is_digit b then Some ([a; b], t) else Some ([a], b :: t)
                   else None
  | [a] => if is_digit a then Some ([a], []) else None
  | [] => None
  end.

(** A case-insensitive literal. *)
Fixpoint lit_ci (p : str) (l : str) : option str :=
  match p, l with
  | [], _ => Some l
  | a :: p', b :: l' => if ascii_eqb (lower a) (lower b) then lit_ci p' l' else None
  | _ :: _, [] => None
  end.

(** Captures of a match: group 1 and, for patterns 0 to 2, group 2. *)
Definition captures := (str * option str)%type.

(** Pattern 0: [(?i)s\s*(\d{1,2})\s*e\s*(\d{1,2})] *)
Definition pat_sxe (l : str) : option captures :=
  match lit_ci (s "s") l with
  | None => None
  | Some l =>
      match digits12 (skip_ws l) with
      | None => None
      | Some (g1, l) =>
          match lit_ci (s "e") (skip_ws l) with
          | None => None
          | Some l =>
              match digits12 (skip_ws l) with
              | None => None
              | Some (g2, _) => Some (g1, Some g2)
              end
          end
      end
  end.

(** Pattern 1: [(?i)(\d{1,2})x(\d{1,2})] *)
Definition pat_nxn (l : str) : option captures :=
  match digits12 l with
  | None => None
  | Some (g1, l) =>
      match lit_ci (s "x") l with
      | None => None
      | Some l =>
          match digits12 l with
          | None => None
          | Some (g2, _) => Some (g1, Some g2)
          end
      end
  end.

(** Pattern 2: [(?i)season\s*(\d{1,2})\s*episode\s*(\d{1,2})] *)
Definition pat_season_episode (l : str) : option captures :=
  match lit_ci (s "season") l with
  | None => None
  | Some l =>
      match digits12 (skip_ws l) with
      | None => None
      | Some (g1, l) =>
          match lit_ci (s "episode") (skip_ws l) with
          | None => None
          | Some l =>
              match digits12 (skip_ws l) with
              | None => None
              | Some (g2, _) => Some (g1, Some g2)
              end
          end
      end
  end.

(** Pattern 3: [(?i)ep(?:isode)?\.?\s*(\d{1,2})]; the optional group is
    tried first with [isode], then without. *)
Definition pat_ep_tail (l : str) : option captures :=
  let l := match l with c :: t => if ascii_eqb c "."%char then t else l | [] => l end in
  match digits12 (skip_ws l) with
  | None => None
  | Some (g1, _) => Some (g1, None)
  end.

Definition pat_ep (l : str) : option captures :=
  match lit_ci (s "ep") l with
  | None => None
  | Some l =>
      match (match lit_ci (s "isode") l with
             | Some l' => pat_ep_tail l'
             | None => None
             end) with
      | Some c => Some c
      | None => pat_ep_tail l
      end
  end.

Definition PATTERNS : list (str -> option captures) :=
  [pat_sxe; pat_nxn; pat_season_episode; pat_ep].

(** The body of [for (idx, pattern) in PATTERNS.iter().enumerate()] once a
    pattern has matched at [match_start]; [None] is the early return of a
    [?]. *)
Definition regex_episode (title : str) (idx : nat) (match_start : nat)
  (caps : captures) : option Episode :=
  let '(g1, g2) := caps in
  let parsed :=
    if idx =? 3 then
      match parse_u32 g1 with Some e => Some (1, e) | None => None end
    else
      match parse_u32 g1, g2 with
      | Some sv, Some g2 =>
          match parse_u32 g2 with Some e => Some (sv, e) | None => None end
      | _, _ => None
      end in
  match parsed with
  | None => None
  | Some (sv, e) =>
      let name := trim (firstn match_start title) in
      let name := if is_empty name then title else name in
      Some {| series_name := name; season := sv; episode := e |}
  end.

Fixpoint regex_loop (title : str) (idx : nat) (pats : list (str -> option captures))
  : option Episode :=
  match pats with
  | [] => None
  | p :: ps =>
      match find_at p 0 title with
      | Some (start, caps) => regex_episode title idx start caps
      | None => regex_loop title (S idx) ps
      end
  end.

Definition detect_episode_regex (title : str) : option Episode :=
  regex_loop title 0 PATTERNS.

(** Strategy B restricted to its first pattern (the S-digits-E-digits
    regex), as the body of the loop computes it when that pattern matches. *)
Definition detect_episode_pattern1 (title : str) : option Episode :=
  match find_at pat_sxe 0 title with
  | Some (start, caps) => regex_episode title 0 start caps
  | None => None
  end.

Definition detect_episode (title : str) : option Episode :=
  match detect_episode_manual title with
  | Some ep => Some ep
  | None => detect_episode_regex title
  end.

(** ** categorizer.rs *)

Inductive Category := LiveStream | Series | Movie.

Definition category_eqb (a b : Category) : bool :=
  match a, b with
  | LiveStream, LiveStream | Series, Series | Movie, Movie => true
  | _, _ => false
  end.

Record CategorizedItem := {
  category : Category;
  cleaned_title : str;
  ci_year : option nat;
  ci_season : option nat;
  ci_episode : option nat
}.

Definition is_live_stream (url : str) : bool :=
  match rfind "/"%char url with
  | Some last_slash =>
      let filename := skipn (last_slash + 1) url in
      let filename_without_query :=
        match find_char "?"%char filename with
        | Some query_pos => firstn query_pos filename
        | None => filename
        end in
      negb (contains_char "."%char filename_without_query)
  | None => false
  end.

Definition categorize_item (title url : str) : CategorizedItem :=
  if is_live_stream url then
    {| category := LiveStream; cleaned_title := title;
       ci_year := None; ci_season := None; ci_episode := None |}
  else
    let '(working_title, yr) :=
      match detect_year title with
      | Some info => (year_cleaned_title info, Some (year info))
      | None => (title, None)
      end in
    match detect_episode working_title with
    | Some ep =>
        {| category := Series; cleaned_title := series_name ep;
           ci_year := yr; ci_season := Some (season ep);
           ci_episode := Some (episode ep) |}
    | None =>
        {| category := Movie; cleaned_title := working_title;
           ci_year := yr; ci_season := None; ci_episode := None |}
    end.

(** ** parser.rs *)

(** [M3UItem] as [parse_entry] builds it: the struct literal sets [title],
    [url], [group], [logo] and [category], and stores in [category] the whole
    [CategorizedItem] returned by [categorize_item].  The [year], [season]
    and [episode] fields declared on [M3UItem] in lib.rs are not set by
    [parse_entry] (the crate does not type-check as written), so the model
    keeps the metadata where [parse_entry] puts it. *)
Record M3UItem := {
  title : str;
  url : str;
  group : str;
  logo : option str;
  item_category : CategorizedItem
}.

Inductive result (A E : Type) := Ok (a : A) | Err (e : E).
Arguments Ok {A E} a.
Arguments Err {A E} e.

Definition err_empty : str := s "Empty file".
Definition err_header : str := s "Invalid M3U file: missing #EXTM3U header".

(** The line up to the first ['\n'] and the text after it. *)
Fixpoint split_line (l : str) : str * str :=
  match l with
  | [] => ([], [])
  | c :: t =>
      if ascii_eqb c "010"%char then ([], t)
      else let '(line, rest) := split_line t in (c :: line, rest)
  end.

(** [read_line] on [content[cursor..]]: [None] when [cursor >= len]. *)
Definition read_line (rest : str) : option (str * str) :=
  match rest with
  | [] => None
  | _ => let '(line, rest') := split_line rest in
         Some (trim_end_matches "013"%char line, rest')
  end.

Definition read_header (rest : str) : result (bool * str) str :=
  match read_line rest with
  | Some (line, rest') => Ok (starts_with (s "#EXTM3U") (trim line), rest')
  | None => Err err_empty
  end.

(** The first loop of [read_entry]: skip to the next [#EXTINF] line. *)
Fixpoint read_metadata (fuel : nat) (rest : str) : option (str * str) :=
  match fuel with
  | 0 => None
  | S f =>
      match read_line rest with
      | None => None
      | Some (line, rest') =>
          let trimmed := trim line in
          if starts_with (s "#EXTINF") trimmed then Some (line, rest')
          else if is_empty trimmed
                  || (starts_with (s "#") trimmed && negb (starts_with (s "#EXTINF") trimmed))
               then read_metadata f rest'
               else read_metadata f rest'
      end
  end.

(** The second loop of [read_entry]: the next non-blank, non-comment line. *)
Fixpoint read_url (fuel : nat) (rest : str) : option (str * str) :=
  match fuel with
  | 0 => None
  | S f =>
      match read_line rest with
      | None => None
      | Some (line, rest') =>
          let trimmed := trim line in
          if negb (is_empty trimmed) && negb (starts_with (s "#") trimmed)
          then Some (line, rest')
          else read_url f rest'
      end
  end.

Definition read_entry (rest : str) : option (str * str * str) :=
  match read_metadata (S (length rest)) rest with
  | None => None
  | Some (metadata, rest') =>
      match read_url (S (length rest')) rest' with
      | None => None
      | Some (u, rest'') => Some (metadata, u, rest'')
      end
  end.

(** [attributes.find(key)], then the next double quote after the key. *)
Definition attribute (key : str) (attributes : str) : option str :=
  match find_str key attributes with
  | Some start =>
      let value_start := start + length key in
      match find_char quote (skipn value_start attributes) with
      | Some value_end => Some (slice value_start (value_start + value_end) attributes)
      | None => None
      end
  | None => None
  end.

Definition tvg_logo_key : str := s "tvg-logo=" ++ [quote].
Definition group_title_key : str := s "group-title=" ++ [quote].

Definition parse_entry (metadata u : str) : option M3UItem :=
  let u := trim u in
  match rfind ","%char metadata with
  | None => None
  | Some comma_pos =>
      let t := trim (skipn (comma_pos + 1) metadata) in
      let attributes := firstn comma_pos metadata in
      let lg := attribute tvg_logo_key attributes in
      let grp := match attribute group_title_key attributes with
                 | Some g => g
                 | None => []
                 end in
      Some {| title := t; url := u; group := grp; logo := lg;
              item_category := categorize_item t u |}
  end.

(** [while let Some((metadata_line, url_line)) = parser.read_entry()]. *)
Fixpoint parse_entries (fuel : nat) (rest : str) : list M3UItem :=
  match fuel with
  | 0 => []
  | S f =>
      match read_entry rest with
      | None => []
      | Some (metadata, u, rest') =>
          match parse_entry metadata u with
          | Some item => item :: parse_entries f rest'
          | None => parse_entries f rest'
          end
      end
  end.

Definition parse (content : str) : result (list M3UItem) str :=
  match read_header content with
  | Err e => Err e
  | Ok (false, _) => Err err_header
  | Ok (true, rest) => Ok (parse_entries (S (length rest)) rest)
  end.

(** ** category_tree.rs *)

Record CategoryNode := { name : str; items : list M3UItem }.

Record CategoryTree := {
  movies : list CategoryNode;
  series : list CategoryNode;
  live_streams : list CategoryNode
}.

(** A [HashMap<String, Vec<M3UItem>>], as an association list with one
    entry per key. *)
Definition group_map := list (str * list M3UItem).

(** [map.entry(group).or_default().push(item)] *)
Fixpoint entry_push (group : str) (item : M3UItem) (m : group_map) : group_map :=
  match m with
  | [] => [(group, [item])]
  | (k, v) :: m' =>
      if str_eqb k group then (k, v ++ [item]) :: m'
      else (k, v) :: entry_push group item m'
  end.

Definition item_group (item : M3UItem) : str :=
  if is_empty (group item) then s "Uncategorized" else group item.

(** The [for item in items] loop over the three maps. *)
Fixpoint build_maps (its : list M3UItem) (mv sr lv : group_map)
  : group_map * group_map * group_map :=
  match its with
  | [] => (mv, sr, lv)
  | item :: rest =>
      let g := item_group item in
      match category (item_category item) with
      | Movie => build_maps rest (entry_push g item mv) sr lv
      | Series => build_maps rest mv (entry_push g item sr) lv
      | LiveStream => build_maps rest mv sr (entry_push g item lv)
      end
  end.

Definition to_nodes (m : group_map) : list CategoryNode :=
  map (fun '(k, v) => {| name := k; items := v |}) m.

Section Build.
(** [HashMap::into_iter] yields the entries in an unspecified order: the
    build is parametrised by that order, which is some permutation of the
    entries. *)
Variable into_iter : group_map -> group_map.

Definition build (its : list M3UItem) : CategoryTree :=
  let '(mv, sr, lv) := build_maps its [] [] [] in
  {| movies := to_nodes (into_iter mv);
     series := to_nodes (into_iter sr);
     live_streams := to_nodes (into_iter lv) |}.
End Build.

(** The order used by the [sort_by] calls of the views. *)
Definition view_cmp (sticky : list str) (a b : CategoryNode) : comparison :=
  match list_contains sticky (name a), list_contains sticky (name b) with
  | true, false => Lt
  | false, true => Gt
  | _, _ => str_cmp (to_lowercase (name a)) (to_lowercase (name b))
  end.

(** [slice::sort_by] is a stable sort; it is modelled by a stable insertion
    sort: an element is inserted before the first element it is not greater
    than, so equal elements keep their order. *)
Section Sort.
Variable A : Type.
Variable cmp : A -> A -> comparison.

Fixpoint insert_by (x : A) (l : list A) : list A :=
  match l with
  | [] => [x]
  | y :: l' => match cmp x y with
               | Gt => y :: insert_by x l'
               | _ => x :: l
               end
  end.

Fixpoint sort_by (l : list A) : list A :=
  match l with
  | [] => []
  | x :: l' => insert_by x (sort_by l')
  end.
End Sort.
Arguments insert_by {A} cmp x l.
Arguments sort_by {A} cmp l.

(** The body shared by [get_movies], [get_series] and [get_live_streams]:
    [retain] the nodes whose name is not hidden, then [sort_by]. *)
Definition view (nodes : list CategoryNode) (sticky hidden : list str)
  : list CategoryNode :=
  sort_by (view_cmp sticky)
    (filter (fun c => negb (list_contains hidden (name c))) nodes).

Definition get_movies (t : CategoryTree) (sticky hidden : list str) : list CategoryNode :=
  view (movies t) sticky hidden.
Definition get_series (t : CategoryTree) (sticky hidden : list str) : list CategoryNode :=
  view (series t) sticky hidden.
Definition get_live_streams (t : CategoryTree) (sticky hidden : list str) : list CategoryNode :=
  view (live_streams t) sticky hidden.

(** The items held by a collection of nodes. *)
Definition node_items (ns : list CategoryNode) : list M3UItem :=
  flat_map items ns.

Definition tree_items (t : CategoryTree) : list M3UItem :=
  node_items (movies t) ++ node_items (series t) ++ node_items (live_streams t).

Definition item_count (ns : list CategoryNode) : nat :=
  fold_right (fun c n => length (items c) + n) 0 ns.

Definition total_item_count (t : CategoryTree) : nat :=
  item_count (movies t) + item_count (series t) + item_count (live_streams t).


(** [find_category]: the first node named [category_name] in the movies,
    then the series, then the live streams. *)
Definition find_category (t : CategoryTree) (category_name : str) : option CategoryNode :=
  find (fun c => str_eqb (name c) category_name) (movies t ++ series t ++ live_streams t).

(** [str::contains] for a substring pattern. *)
Definition contains_str (p l : str) : bool := is_some (find_str p l).

(** [search]: for every node of the movies, then the series, then the live
    streams, the items whose lowercased title contains the lowercased
    query, in order. *)
Definition search (t : CategoryTree) (query : str) : list M3UItem :=
  let query_lower := to_lowercase query in
  flat_map (fun c => filter (fun it => contains_str query_lower (to_lowercase (title it)))
                            (items c))
           (movies t ++ series t ++ live_streams t).

Record UserItemPrefs := { favorite : option bool; hidden : option bool }.

(** The [HashMap<String, UserItemPrefs>] that [get_items] deserializes from
    [user_prefs] (empty when deserialization fails), as an association
    list; [prefs.get(k)] is its first entry with key [k]. *)
Definition prefs_map := list (str * UserItemPrefs).

Fixpoint prefs_get (m : prefs_map) (k : str) : option UserItemPrefs :=
  match m with
  | [] => None
  | (k', v) :: m' => if str_eqb k' k then Some v else prefs_get m' k
  end.

(** [prefs.get(&item.url).map(|p| !p.hidden.unwrap_or(false)).unwrap_or(true)] *)
Definition item_visible (prefs : prefs_map) (it : M3UItem) : bool :=
  match prefs_get prefs (url it) with
  | Some p => negb (match hidden p with Some b => b | None => false end)
  | None => true
  end.

(** [prefs.get(&a.url).and_then(|p| p.favorite).unwrap_or(false)] *)
Definition item_fav (prefs : prefs_map) (it : M3UItem) : bool :=
  match prefs_get prefs (url it) with
  | Some p => match favorite p with Some b => b | None => false end
  | None => false
  end.

(** The order used by the [sort_by] call of [get_items]. *)
Definition item_cmp (prefs : prefs_map) (a b : M3UItem) : comparison :=
  match item_fav prefs a, item_fav prefs b with
  | true, false => Lt
  | false, true => Gt
  | _, _ => str_cmp (to_lowercase (title a)) (to_lowercase (title b))
  end.

(** [CategoryNode::get_items]: [retain] the visible items, then [sort_by]. *)
Definition get_items (node : CategoryNode) (prefs : prefs_map) : list M3UItem :=
  sort_by (item_cmp prefs) (filter (item_visible prefs) (items node)).
(** * Properties *)

(** ** General lemmas about the text helpers *)

Lemma ascii_eqb_true (a b : ascii) : ascii_eqb a b = true -> a = b.
Proof. unfold ascii_eqb. apply Ascii.eqb_eq. Qed.

Lemma ascii_eqb_refl (a : ascii) : ascii_eqb a a = true.
Proof. unfold ascii_eqb. apply Ascii.eqb_refl. Qed.

Lemma is_digit_bounds (c : ascii) :
  is_digit c = true -> 48 <= nat_of_ascii c <= 57.
Proof.
  unfold is_digit. intros H. apply andb_prop in H as [H1 H2].
  apply Nat.leb_le in H1. apply Nat.leb_le in H2. lia.
Qed.

Lemma find_at_suffix {A : Type} (m : str -> option A) (l : str) :
  forall i j a, find_at m i l = Some (j, a) ->
  exists pre l', l = pre ++ l' /\ j = i + length pre /\ m l' = Some a.
Proof.
  induction l as [|c t IH]; intros i j a H; simpl in H.
  - destruct (m []) eqn:E; [|discriminate].
    inversion H; subst. exists [], []. repeat split; simpl; auto; lia.
  - destruct (m (c :: t)) eqn:E.
    + inversion H; subst. exists [], (c :: t). repeat split; simpl; auto; lia.
    + destruct (IH _ _ _ H) as (pre & l' & -> & -> & Hm).
      exists (c :: pre), l'. repeat split; simpl; auto; lia.
Qed.

(** ** The year pattern *)

Lemma year_at_shape (l ys : str) :
  year_at l = Some ys ->
  exists a b c d, ys = [a; b; c; d] /\
    ((a = "1"%char /\ b = "9"%char) \/ (a = "2"%char /\ b = "0"%char)) /\
    is_digit c = true /\ is_digit d = true.
Proof.
  destruct l as [|a [|b [|c [|d r]]]]; simpl; try discriminate.
  destruct ((ascii_eqb a "1" && ascii_eqb b "9") || (ascii_eqb a "2" && ascii_eqb b "0"))%char
    eqn:Hab; simpl; [|discriminate].
  destruct (is_digit c) eqn:Hc; simpl; [|discriminate].
  destruct (is_digit d) eqn:Hd; simpl; [|discriminate].
  intros H; inversion H; subst.
  exists a, b, c, d. repeat split; auto.
  apply orb_prop in Hab as [H1|H1]; apply andb_prop in H1 as [H1 H2];
    apply ascii_eqb_true in H1; apply ascii_eqb_true in H2; auto.
Qed.

Lemma parse_u32_value (l : str) (y : nat) :
  parse_u32 l = Some y -> (forall t, l <> "+"%char :: t) -> y = digits_value 0 l.
Proof.
  unfold parse_u32. intros Hp Hn. destruct l as [|c t]; [discriminate|].
  destruct (ascii_eqb c "+") eqn:E.
  - apply ascii_eqb_true in E. subst. exfalso. apply (Hn t). reflexivity.
  - destruct (negb (is_empty (c :: t)) && forallb is_digit (c :: t)); [|discriminate].
    destruct (N.of_nat _ <? _)%N; congruence.
Qed.

Lemma year_value_range (ys : str) (y : nat) :
  (exists l, year_at l = Some ys) -> parse_u32 ys = Some y -> 1900 <= y <= 2099.
Proof.
  intros [l Hl] Hp.
  destruct (year_at_shape _ _ Hl) as (a & b & c & d & -> & Hab & Hc & Hd).
  apply is_digit_bounds in Hc. apply is_digit_bounds in Hd.
  apply parse_u32_value in Hp;
    [| intros t Ht; inversion Ht; subst; destruct Hab as [[H _]|[H _]]; discriminate].
  subst y. cbn [digits_value]. unfold digit_val.
  destruct Hab as [[-> ->]|[-> ->]];
    [change (nat_of_ascii "1"%char) with 49; change (nat_of_ascii "9"%char) with 57
    |change (nat_of_ascii "2"%char) with 50; change (nat_of_ascii "0"%char) with 48];
    lia.
Qed.

Lemma detect_year_range (t : str) (info : YearInfo) :
  detect_year t = Some info -> 1900 <= year info <= 2099.
Proof.
  unfold detect_year.
  destruct (find_at year_at 0 t) as [[st ys]|] eqn:E; [|discriminate].
  destruct (parse_u32 ys) as [y|] eqn:Hp; [|discriminate].
  intros H; inversion H; subst; simpl.
  apply (year_value_range ys); auto.
  destruct (find_at_suffix _ _ _ _ _ E) as (pre & l' & _ & _ & Hm). eauto.
Qed.

(** ** Character search *)

Lemma rfind_from_none (c : ascii) (l : str) :
  forall i, ~ In c l -> rfind_from i c l = None.
Proof.
  induction l as [|d t IH]; intros i Hn; simpl; auto.
  rewrite IH by (simpl in Hn; tauto).
  destruct (ascii_eqb c d) eqn:E; auto.
  apply ascii_eqb_true in E. subst. simpl in Hn. tauto.
Qed.

Lemma is_live_stream_no_slash (u : str) :
  ~ In "/"%char u -> is_live_stream u = false.
Proof.
  intros H. unfold is_live_stream, rfind. rewrite rfind_from_none; auto.
Qed.

(** ** Claims about the categorizer *)

(** C6: on every (title, url), [categorize_item] returns a season exactly
    when it classifies the item as Series, and likewise an episode; a
    LiveStream result carries no year, season or episode; and a year, when
    present, lies in [1900, 2099]. *)
Theorem categorize_item_metadata_invariant (t u : str) :
  let r := categorize_item t u in
  (ci_season r <> None <-> category r = Series) /\
  (ci_episode r <> None <-> category r = Series) /\
  (category r = LiveStream ->
     ci_year r = None /\ ci_season r = None /\ ci_episode r = None) /\
  (forall y, ci_year r = Some y -> 1900 <= y <= 2099).
Proof.
  unfold categorize_item.
  destruct (is_live_stream u).
  - simpl. repeat split; try congruence; discriminate.
  - destruct (detect_year t) as [info|] eqn:Hy;
      destruct (detect_episode _) as [ep|]; simpl;
      (split; [|split; [|split]]);
      try (intros yv Hyv; inversion Hyv; subst; eapply detect_year_range; eauto);
      (repeat split; try congruence; try discriminate).
Qed.

(** C9: a URL without any ['/'] is never a live stream, so [categorize_item]
    classifies the item by its title (Movie or Series) whatever the URL;
    e.g. the bare URL ["channel1"]. *)
Theorem no_slash_url_not_live_stream (u : str) :
  ~ In "/"%char u ->
  is_live_stream u = false /\
  forall t, category (categorize_item t u) = Movie \/ category (categorize_item t u) = Series.
Proof.
  intros H. split; [apply is_live_stream_no_slash; auto|].
  intros t. unfold categorize_item. rewrite is_live_stream_no_slash by auto.
  destruct (detect_year t) as [info|]; destruct (detect_episode _); simpl; auto.
Qed.

Lemma no_slash_url_not_live_stream_witness :
  ~ In "/"%char (s "channel1") /\
  (is_live_stream (s "channel1") = false /\
   forall t, category (categorize_item t (s "channel1")) = Movie \/
             category (categorize_item t (s "channel1")) = Series).
Proof.
  assert (H : ~ In "/"%char (s "channel1")) by (simpl; intuition discriminate).
  split; [exact H | apply (no_slash_url_not_live_stream (s "channel1")); exact H].
Defined.

(** ** The category tree *)

Definition map_items (m : group_map) : list M3UItem := flat_map snd m.

Lemma entry_push_perm (g : str) (it : M3UItem) (m : group_map) :
  Permutation (map_items (entry_push g it m)) (it :: map_items m).
Proof.
  induction m as [|[k v] m IH]; simpl; [auto|].
  destruct (str_eqb k g); simpl.
  - rewrite <- app_assoc. simpl. apply Permutation_sym, Permutation_middle.
  - eapply perm_trans; [apply Permutation_app_head, IH|].
    apply Permutation_sym, Permutation_middle.
Qed.

Lemma perm_shift_head {A : Type} (rest X Y : list A) (a : A) :
  Permutation X (a :: Y) -> Permutation (rest ++ X) (a :: rest ++ Y).
Proof.
  intros H. eapply perm_trans; [apply Permutation_app_head, H|].
  apply Permutation_sym, Permutation_middle.
Qed.

Lemma build_maps_perm (its : list M3UItem) :
  forall mv sr lv,
  let '(mv', sr', lv') := build_maps its mv sr lv in
  Permutation (map_items mv' ++ map_items sr' ++ map_items lv')
              (its ++ map_items mv ++ map_items sr ++ map_items lv).
Proof.
  induction its as [|it rest IH]; intros mv sr lv; simpl; [auto|].
  destruct (category (item_category it)).
  - specialize (IH mv sr (entry_push (item_group it) it lv)).
    destruct (build_maps rest _ _ _) as [[a b] c].
    eapply perm_trans; [exact IH|]. apply perm_shift_head.
    eapply perm_trans.
    + apply Permutation_app_head, Permutation_app_head, entry_push_perm.
    + rewrite app_assoc, (app_assoc (map_items mv)).
      apply Permutation_sym, Permutation_middle.
  - specialize (IH mv (entry_push (item_group it) it sr) lv).
    destruct (build_maps rest _ _ _) as [[a b] c].
    eapply perm_trans; [exact IH|]. apply perm_shift_head.
    eapply perm_trans.
    + apply Permutation_app_head, Permutation_app_tail, entry_push_perm.
    + apply Permutation_sym, Permutation_middle.
  - specialize (IH (entry_push (item_group it) it mv) sr lv).
    destruct (build_maps rest _ _ _) as [[a b] c].
    eapply perm_trans; [exact IH|]. apply perm_shift_head.
    apply (Permutation_app_tail _ (entry_push_perm _ _ _)).
Qed.

Lemma node_items_to_nodes (m : group_map) : node_items (to_nodes m) = map_items m.
Proof. induction m as [|[k v] m IH]; simpl; congruence. Qed.

Lemma item_count_length (ns : list CategoryNode) : item_count ns = length (node_items ns).
Proof.
  induction ns as [|c ns IH]; simpl; [reflexivity|].
  rewrite length_app. congruence.
Qed.

Lemma total_item_count_length (t : CategoryTree) :
  total_item_count t = length (tree_items t).
Proof.
  unfold total_item_count, tree_items. rewrite !length_app, !item_count_length. lia.
Qed.

Section BuildClaims.
Variable into_iter : group_map -> group_map.
Hypothesis into_iter_perm : forall m, Permutation (into_iter m) m.

Lemma map_items_into_iter (m : group_map) :
  Permutation (map_items (into_iter m)) (map_items m).
Proof. unfold map_items. apply Permutation_flat_map, into_iter_perm. Qed.

(** C2: [CategoryTree::build] places every input item in exactly one node
    of exactly one of the three collections: the items held by all the
    nodes of movies, series and live streams are the input items up to
    order (none duplicated, none dropped), and the total item count equals
    the number of input items; this holds for every iteration order of the
    hash maps. *)
Theorem build_preserves_items (its : list M3UItem) :
  Permutation (tree_items (build into_iter its)) its /\
  total_item_count (build into_iter its) = length its.
Proof.
  assert (H : Permutation (tree_items (build into_iter its)) its).
  { unfold build. pose proof (build_maps_perm its [] [] []) as Hb.
    destruct (build_maps its [] [] []) as [[mv sr] lv]. unfold tree_items. simpl.
    rewrite !node_items_to_nodes.
    eapply perm_trans; [|rewrite <- (app_nil_r its); exact Hb].
    apply Permutation_app; [apply map_items_into_iter|].
    apply Permutation_app; apply map_items_into_iter. }
  split; [exact H|].
  rewrite total_item_count_length. apply Permutation_length, H.
Qed.
End BuildClaims.

Definition sample_item (t g : string) (c : Category) : M3UItem :=
  {| title := s t; url := s "http://x/a.mkv"; group := s g; logo := None;
     item_category := {| category := c; cleaned_title := s t; ci_year := None;
                         ci_season := None; ci_episode := None |} |}.

Definition sample_items : list M3UItem :=
  [sample_item "A" "Action" Movie; sample_item "B" "" Series;
   sample_item "C" "Action" Movie; sample_item "D" "News" LiveStream].

Lemma build_preserves_items_witness :
  (forall m : group_map, Permutation (id m) m) /\
  (Permutation (tree_items (build id sample_items)) sample_items /\
   total_item_count (build id sample_items) = length sample_items).
Proof.
  assert (H : forall m : group_map, Permutation (id m) m) by (intros; apply Permutation_refl).
  split; [exact H | apply (build_preserves_items id H sample_items)].
Defined.

(** ** Sorting *)

Section SortProps.
Variable A : Type.
Variable cmp : A -> A -> comparison.
Hypothesis cmp_antisym : forall a b, cmp b a = CompOpp (cmp a b).
Hypothesis cmp_le_trans :
  forall a b c, cmp a b <> Gt -> cmp b c <> Gt -> cmp a c <> Gt.

Definition le_by (a b : A) : Prop := cmp a b <> Gt.

Lemma insert_by_perm (x : A) (l : list A) : Permutation (insert_by cmp x l) (x :: l).
Proof.
  induction l as [|y l IH]; simpl; [auto|].
  destruct (cmp x y); auto.
  eapply perm_trans; [apply perm_skip, IH|]. apply perm_swap.
Qed.

Lemma sort_by_perm (l : list A) : Permutation (sort_by cmp l) l.
Proof.
  induction l as [|x l IH]; simpl; [auto|].
  eapply perm_trans; [apply insert_by_perm|]. auto.
Qed.

Lemma gt_flip (x y : A) : cmp x y = Gt -> le_by y x.
Proof. unfold le_by. intros H. rewrite cmp_antisym, H. discriminate. Qed.

Lemma insert_by_sorted (x : A) (l : list A) :
  StronglySorted le_by l -> StronglySorted le_by (insert_by cmp x l).
Proof.
  induction l as [|y l IH]; simpl; intros Hs.
  - constructor; auto.
  - apply StronglySorted_inv in Hs as [Hl Hy].
    destruct (cmp x y) eqn:E.
    + constructor; [constructor; auto|].
      constructor; [unfold le_by; congruence|].
      eapply Forall_impl; [|exact Hy]. intros z Hz. eapply cmp_le_trans; eauto; congruence.
    + constructor; [constructor; auto|].
      constructor; [unfold le_by; congruence|].
      eapply Forall_impl; [|exact Hy]. intros z Hz. eapply cmp_le_trans; eauto; congruence.
    + constructor; [apply IH; auto|].
      eapply Permutation_Forall; [apply Permutation_sym, insert_by_perm|].
      constructor; [apply gt_flip; auto | auto].
Qed.

Lemma sort_by_sorted (l : list A) : StronglySorted le_by (sort_by cmp l).
Proof.
  induction l as [|x l IH]; simpl; [constructor|]. apply insert_by_sorted, IH.
Qed.
End SortProps.
Arguments le_by {A} cmp a b.

(** ** The comparison of the views *)

Lemma ascii_compare_trans_le (x y z : ascii) :
  Ascii.compare x y <> Gt -> Ascii.compare y z <> Gt -> Ascii.compare x z <> Gt.
Proof.
  unfold Ascii.compare. intros H1 H2.
  rewrite N.compare_le_iff in *. lia.
Qed.

Lemma ascii_compare_trans_lt (x y z : ascii) :
  Ascii.compare x y = Lt -> Ascii.compare y z <> Gt -> Ascii.compare x z = Lt.
Proof.
  unfold Ascii.compare. intros H1 H2.
  rewrite N.compare_lt_iff in *. rewrite N.compare_le_iff in *. lia.
Qed.

Lemma str_cmp_antisym (a b : str) : str_cmp b a = CompOpp (str_cmp a b).
Proof.
  revert b; induction a as [|x a IH]; intros [|y b]; simpl; auto.
  rewrite (Ascii.compare_antisym y x).
  destruct (Ascii.compare x y); simpl; auto.
Qed.

Lemma str_cmp_le_trans (a b c : str) :
  str_cmp a b <> Gt -> str_cmp b c <> Gt -> str_cmp a c <> Gt.
Proof.
  revert b c; induction a as [|x a IH]; intros [|y b] [|z c]; simpl; auto; try congruence.
  intros H1 H2.
  destruct (Ascii.compare x y) eqn:Exy; [| |congruence].
  - apply Ascii.compare_eq_iff in Exy. subst y.
    destruct (Ascii.compare x z) eqn:Exz; auto. eapply IH; eauto.
  - assert (Hyz : Ascii.compare y z <> Gt) by (destruct (Ascii.compare y z); congruence).
    rewrite (ascii_compare_trans_lt _ _ _ Exy Hyz). discriminate.
Qed.

Lemma view_cmp_antisym (st : list str) (a b : CategoryNode) :
  view_cmp st b a = CompOpp (view_cmp st a b).
Proof.
  unfold view_cmp.
  destruct (list_contains st (name a)), (list_contains st (name b)); simpl;
    auto using str_cmp_antisym.
Qed.

Lemma view_cmp_le_trans (st : list str) (a b c : CategoryNode) :
  view_cmp st a b <> Gt -> view_cmp st b c <> Gt -> view_cmp st a c <> Gt.
Proof.
  unfold view_cmp.
  destruct (list_contains st (name a)), (list_contains st (name b)),
    (list_contains st (name c)); simpl; try congruence; apply str_cmp_le_trans.
Qed.

(** The order the views promise: sticky names before the others, and within
    each of the two partitions ascending case-insensitive names. *)
Definition view_order (st : list str) (a b : CategoryNode) : Prop :=
  (list_contains st (name b) = true -> list_contains st (name a) = true) /\
  (list_contains st (name a) = list_contains st (name b) ->
     str_cmp (to_lowercase (name a)) (to_lowercase (name b)) <> Gt).

Lemma le_by_view_order (st : list str) (a b : CategoryNode) :
  le_by (view_cmp st) a b -> view_order st a b.
Proof.
  unfold le_by, view_order, view_cmp.
  destruct (list_contains st (name a)), (list_contains st (name b)); simpl;
    intuition congruence.
Qed.

Lemma StronglySorted_impl {A : Type} (R R' : A -> A -> Prop) (l : list A) :
  (forall a b, R a b -> R' a b) -> StronglySorted R l -> StronglySorted R' l.
Proof.
  intros Himp Hs. induction Hs; constructor; auto.
  eapply Forall_impl; [|eassumption]. auto.
Qed.

Definition node (n : string) : CategoryNode := {| name := s n; items := [] |}.

Definition sample_tree : CategoryTree :=
  {| movies := [node "Drama"; node "Comedy"; node "Action"]; series := [];
     live_streams := [] |}.

(** C8: for every sticky and hidden group list, [get_movies] returns exactly
    the movie nodes whose names are not hidden, up to order, ordered so that
    sticky names come before the others and, within each partition, by
    ascending case-insensitive name; with nodes Action, Comedy and Drama and
    sticky [Action] the order is Action, Comedy, Drama, and hidden [Comedy]
    excludes Comedy. *)
Theorem get_movies_filter_sort :
  (forall (t : CategoryTree) (sticky hidden : list str),
     Permutation (get_movies t sticky hidden)
       (filter (fun c => negb (list_contains hidden (name c))) (movies t)) /\
     StronglySorted (view_order sticky) (get_movies t sticky hidden)) /\
  map name (get_movies sample_tree [s "Action"] []) = [s "Action"; s "Comedy"; s "Drama"] /\
  map name (get_movies sample_tree [s "Action"] [s "Comedy"]) = [s "Action"; s "Drama"].
Proof.
  split; [|split; vm_compute; reflexivity].
  intros t sticky hidden. unfold get_movies, view. split.
  - apply sort_by_perm.
  - eapply StronglySorted_impl; [apply le_by_view_order|].
    apply sort_by_sorted; [apply view_cmp_antisym | apply view_cmp_le_trans].
Qed.

(** ** Concrete runs of the pipeline *)

Definition lf : ascii := "010"%char.

(** One line of a document, with its ['\n']. *)
Definition ln (x : string) : str := s x ++ [lf].

Definition amazing_show_doc : str :=
  ln "#EXTM3U" ++
  s "#EXTINF:-1 group-title=" ++ [quote] ++ s "Series" ++ [quote] ++
  ln ",Amazing Show (2023) S02E05" ++
  ln "http://x/show.mkv".

(** C1: on the document of the spec's end-to-end example, [parse] returns
    one item classified Series with year 2023, season 2 and episode 5, but
    the title it stores is the raw title ["Amazing Show (2023) S02E05"]:
    [parse_entry] stores [title], not the [cleaned_title]
    ["Amazing Show"] computed by [categorize_item]. *)
Theorem amazing_show_parse :
  parse amazing_show_doc =
  Ok [ {| title := s "Amazing Show (2023) S02E05";
          url := s "http://x/show.mkv";
          group := s "Series";
          logo := None;
          item_category := {| category := Series;
                              cleaned_title := s "Amazing Show";
                              ci_year := Some 2023;
                              ci_season := Some 2;
                              ci_episode := Some 5 |} |} ].
Proof. vm_compute. reflexivity. Qed.

(** C3 (as stated): an entry without [group-title] and [tvg-logo] is not
    dropped: it is returned with an empty group and no logo. *)
Lemma missing_attributes_not_dropped :
  exists it,
    parse (ln "#EXTM3U" ++ ln "#EXTINF:-1,Plain Title" ++ ln "http://x/a.mkv") = Ok [it] /\
    group it = [] /\ logo it = None.
Proof. eexists. vm_compute. split; [reflexivity | split; reflexivity]. Qed.

(** C7 (as stated): a blank line before the header line makes [parse] fail
    with the missing-header error. *)
Lemma blank_line_before_header_rejected :
  parse (ln "" ++ ln "#EXTM3U" ++ ln "#EXTINF:-1,T" ++ ln "http://x/a.mkv") = Err err_header.
Proof. vm_compute. reflexivity. Qed.

(** C4 (as stated): ["19(2020)99"] holds a single wrapped year, yet its
    cleaned title ["1999"] is a year again; and in ["Movie 1980 (2020)"] the
    first (unwrapped) year is removed, leaving the wrapped one in place. *)
Lemma detect_year_not_idempotent :
  detect_year (s "19(2020)99") = Some {| year := 2020; year_cleaned_title := s "1999" |} /\
  detect_year (s "1999") = Some {| year := 1999; year_cleaned_title := [] |} /\
  detect_year (s "Movie 1980 (2020)") =
    Some {| year := 1980; year_cleaned_title := s "Movie (2020)" |} /\
  detect_year (s "Movie (2020)") = Some {| year := 2020; year_cleaned_title := s "Movie" |}.
Proof. vm_compute. repeat split; reflexivity. Qed.

(** C5 (as stated): on ["Show S1 Part E2 S3E4"] both strategies succeed and
    disagree: the forward scan pairs the first season marker with the next
    episode marker anywhere after it, while pattern 1 only matches a season
    and an episode separated by whitespace. *)
Lemma strategies_disagree :
  detect_episode_manual (s "Show S1 Part E2 S3E4") =
    Some {| series_name := s "Show"; season := 1; episode := 2 |} /\
  detect_episode_pattern1 (s "Show S1 Part E2 S3E4") =
    Some {| series_name := s "Show S1 Part E2"; season := 3; episode := 4 |}.
Proof. vm_compute. split; reflexivity. Qed.

(** ** The line reader *)

Lemma split_line_app (l r : str) :
  ~ In lf l -> split_line (l ++ lf :: r) = (l, r).
Proof.
  unfold lf. induction l as [|c l IH]; intros Hn; simpl.
  - reflexivity.
  - destruct (ascii_eqb c "010"%char) eqn:E.
    + apply ascii_eqb_true in E. subst. simpl in Hn. tauto.
    + rewrite IH by (simpl in Hn; tauto). reflexivity.
Qed.

Lemma read_line_app (l r : str) :
  ~ In lf l -> read_line (l ++ lf :: r) = Some (trim_end_matches "013"%char l, r).
Proof.
  intros Hn. unfold read_line.
  destruct (l ++ lf :: r) eqn:E; [destruct l; discriminate|].
  rewrite <- E, split_line_app by exact Hn. reflexivity.
Qed.

Lemma split_line_rest_length (c : ascii) (t : str) :
  length (snd (split_line (c :: t))) <= length t.
Proof.
  revert c; induction t as [|c' t IH]; intros c; simpl.
  - destruct (ascii_eqb c "010"%char); simpl; lia.
  - destruct (ascii_eqb c "010"%char); simpl; [lia|].
    specialize (IH c'). simpl in IH.
    destruct (ascii_eqb c' "010"%char); simpl in *; [lia|].
    destruct (split_line t); simpl in *; lia.
Qed.

Lemma read_line_shrinks (x line r : str) :
  read_line x = Some (line, r) -> length r < length x.
Proof.
  unfold read_line. destruct x as [|c t]; [discriminate|].
  pose proof (split_line_rest_length c t) as Hl.
  destruct (split_line (c :: t)) as [a b]. intros H; inversion H; subst.
  simpl in *. lia.
Qed.

Lemma drop_while_ws_cr (x : str) :
  drop_while is_ws (drop_while (ascii_eqb "013"%char) x) = drop_while is_ws x.
Proof.
  induction x as [|c x IH]; [reflexivity|]. cbn [drop_while].
  destruct (ascii_eqb "013" c) eqn:E.
  - apply ascii_eqb_true in E. subst. rewrite IH. reflexivity.
  - reflexivity.
Qed.

(** Removing the trailing ['\r']s of a line does not change its trimmed
    form. *)
Lemma trim_trim_end_matches_cr (l : str) :
  trim (trim_end_matches "013"%char l) = trim l.
Proof.
  unfold trim, trim_end, trim_end_matches. rewrite rev_involutive, drop_while_ws_cr.
  reflexivity.
Qed.

Lemma drop_while_in (p : ascii -> bool) (c : ascii) (l : str) :
  In c (drop_while p l) -> In c l.
Proof.
  induction l as [|d l IH]; simpl; auto.
  destruct (p d); simpl; auto.
Qed.

Lemma trim_end_matches_in (d c : ascii) (l : str) :
  In c (trim_end_matches d l) -> In c l.
Proof.
  unfold trim_end_matches. intros H. apply in_rev in H.
  apply drop_while_in in H. apply in_rev in H. exact H.
Qed.

(** ** Fuel *)

Lemma read_metadata_shrinks (n : nat) :
  forall x line r, read_metadata n x = Some (line, r) -> length r < length x.
Proof.
  induction n as [|n IH]; intros x line r H; cbn [read_metadata] in H; [discriminate|].
  destruct (read_line x) as [[l x']|] eqn:E; [|discriminate].
  pose proof (read_line_shrinks _ _ _ E).
  destruct (starts_with _ _); [inversion H; subst; auto|].
  destruct (_ || _); apply IH in H; lia.
Qed.

Lemma read_url_shrinks (n : nat) :
  forall x line r, read_url n x = Some (line, r) -> length r < length x.
Proof.
  induction n as [|n IH]; intros x line r H; cbn [read_url] in H; [discriminate|].
  destruct (read_line x) as [[l x']|] eqn:E; [|discriminate].
  pose proof (read_line_shrinks _ _ _ E).
  destruct (_ && _); [inversion H; subst; auto|]. apply IH in H. lia.
Qed.

Lemma read_entry_shrinks (x m u r : str) :
  read_entry x = Some (m, u, r) -> length r < length x.
Proof.
  unfold read_entry.
  destruct (read_metadata _ x) as [[m' x']|] eqn:E1; [|discriminate].
  destruct (read_url _ x') as [[u' x'']|] eqn:E2; [|discriminate].
  intros H; inversion H; subst.
  apply read_metadata_shrinks in E1. apply read_url_shrinks in E2. lia.
Qed.

Lemma read_metadata_fuel (n : nat) :
  forall m x, length x < n -> length x < m -> read_metadata n x = read_metadata m x.
Proof.
  induction n as [|n IH]; intros [|m] x Hn Hm; try lia; cbn [read_metadata].
  destruct (read_line x) as [[l x']|] eqn:E; auto.
  pose proof (read_line_shrinks _ _ _ E).
  destruct (starts_with _ _); auto.
  destruct (_ || _); apply IH; lia.
Qed.

Lemma read_url_fuel (n : nat) :
  forall m x, length x < n -> length x < m -> read_url n x = read_url m x.
Proof.
  induction n as [|n IH]; intros [|m] x Hn Hm; try lia; cbn [read_url].
  destruct (read_line x) as [[l x']|] eqn:E; auto.
  pose proof (read_line_shrinks _ _ _ E).
  destruct (_ && _); auto. apply IH; lia.
Qed.

Lemma parse_entries_fuel (n : nat) :
  forall m x, length x < n -> length x < m -> parse_entries n x = parse_entries m x.
Proof.
  induction n as [|n IH]; intros [|m] x Hn Hm; try lia; cbn [parse_entries].
  destruct (read_entry x) as [[[md u] x']|] eqn:E; auto.
  pose proof (read_entry_shrinks _ _ _ _ E).
  destruct (parse_entry md u); [f_equal|]; apply IH; lia.
Qed.

(** ** The header check *)

Definition header_ok (line : str) : bool := starts_with (s "#EXTM3U") (trim line).

Lemma parse_cases (c : str) :
  (c = [] /\ parse c = Err err_empty) \/
  (exists line rest, read_line c = Some (line, rest) /\
     ((header_ok line = false /\ parse c = Err err_header) \/
      (header_ok line = true /\ parse c = Ok (parse_entries (S (length rest)) rest)))).
Proof.
  destruct c as [|a c]; [left; auto|right].
  unfold parse, read_header.
  destruct (read_line (a :: c)) as [[line rest]|] eqn:E.
  - exists line, rest. split; [reflexivity|]. unfold header_ok.
    destruct (starts_with _ _); auto.
  - unfold read_line in E. destruct (split_line (a :: c)). discriminate.
Qed.

Lemma parse_header_line (h r : str) :
  ~ In lf h ->
  parse (h ++ lf :: r) =
  if header_ok h then Ok (parse_entries (S (length r)) r) else Err err_header.
Proof.
  intros Hn. unfold parse, read_header. rewrite read_line_app by exact Hn.
  unfold header_ok. rewrite trim_trim_end_matches_cr.
  destruct (starts_with _ _); reflexivity.
Qed.

Lemma err_empty_ne_header : err_empty <> err_header.
Proof. intros H. vm_compute in H. discriminate. Qed.

(** ** Skipping and dropping entries *)

Lemma read_entry_skip_line (l rest : str) :
  ~ In lf l -> starts_with (s "#EXTINF") (trim l) = false ->
  read_entry (l ++ lf :: rest) = read_entry rest.
Proof.
  intros Hn Hx. unfold read_entry. cbn [read_metadata].
  rewrite read_line_app by exact Hn. cbv beta iota zeta.
  rewrite trim_trim_end_matches_cr, Hx.
  rewrite (read_metadata_fuel (length (l ++ lf :: rest)) (S (length rest)))
    by (try rewrite length_app; simpl; lia).
  destruct (_ || _); reflexivity.
Qed.

Lemma parse_entries_skip_line (k : nat) (l rest : str) :
  ~ In lf l -> starts_with (s "#EXTINF") (trim l) = false ->
  length (l ++ lf :: rest) < k ->
  parse_entries k (l ++ lf :: rest) = parse_entries (S (length rest)) rest.
Proof.
  intros Hn Hx Hk. destruct k as [|k]; [lia|]. cbn [parse_entries].
  rewrite read_entry_skip_line by assumption.
  destruct (read_entry rest) as [[[m u] r']|] eqn:E; [|reflexivity].
  apply read_entry_shrinks in E. rewrite length_app in Hk. simpl in Hk.
  destruct (parse_entry m u); [f_equal|]; apply parse_entries_fuel; lia.
Qed.

Lemma read_metadata_extinf (n : nat) (m rest : str) :
  ~ In lf m -> starts_with (s "#EXTINF") (trim m) = true ->
  read_metadata (S n) (m ++ lf :: rest) = Some (trim_end_matches "013"%char m, rest).
Proof.
  intros Hn Hx. cbn [read_metadata]. rewrite read_line_app by exact Hn.
  cbv beta iota zeta. rewrite trim_trim_end_matches_cr, Hx. reflexivity.
Qed.

Lemma read_url_line (n : nat) (u rest : str) :
  ~ In lf u -> is_empty (trim u) = false -> starts_with (s "#") (trim u) = false ->
  read_url (S n) (u ++ lf :: rest) = Some (trim_end_matches "013"%char u, rest).
Proof.
  intros Hn He Hh. cbn [read_url]. rewrite read_line_app by exact Hn.
  cbv beta iota zeta. rewrite trim_trim_end_matches_cr, He, Hh. reflexivity.
Qed.

Lemma rfind_from_some (c : ascii) (l : str) :
  forall i, In c l -> exists j, rfind_from i c l = Some j.
Proof.
  induction l as [|d l IH]; intros i Hin; [destruct Hin|]. simpl.
  destruct (rfind_from (S i) c l) as [j|] eqn:E; [eauto|].
  destruct Hin as [->|Hin].
  - rewrite ascii_eqb_refl. eauto.
  - destruct (IH (S i) Hin) as [j Hj]. congruence.
Qed.

Lemma starts_with_app (p x y : str) :
  starts_with p x = true -> starts_with p (x ++ y) = true.
Proof.
  revert x; induction p as [|a p IH]; intros [|b x] H; simpl in *; auto; try discriminate.
  apply andb_prop in H as [H1 H2]. rewrite H1. simpl. auto.
Qed.

Lemma find_str_from_app_none (p x y : str) :
  forall i, find_str_from i p (x ++ y) = None -> find_str_from i p x = None.
Proof.
  induction x as [|a x IH]; intros i H; simpl in *.
  - destruct (starts_with p []) eqn:E; auto.
    pose proof (starts_with_app p [] y E) as E'. simpl in E'.
    destruct y; simpl in H; rewrite E' in H; discriminate.
  - destruct (starts_with p (a :: x)) eqn:E.
    + pose proof (starts_with_app p (a :: x) y E) as E'. simpl in E'.
      rewrite E' in H. discriminate.
    + destruct (starts_with p (a :: x ++ y)); [discriminate|]. auto.
Qed.

Lemma attribute_firstn_none (key m : str) (k : nat) :
  find_str key m = None -> attribute key (firstn k m) = None.
Proof.
  intros H. unfold attribute, find_str.
  rewrite (find_str_from_app_none key (firstn k m) (skipn k m) 0); [reflexivity|].
  rewrite firstn_skipn. exact H.
Qed.

Lemma parse_entry_no_comma (m u : str) :
  ~ In ","%char m -> parse_entry m u = None.
Proof. intros H. unfold parse_entry, rfind. rewrite rfind_from_none by exact H. reflexivity. Qed.

Lemma parse_entry_no_attributes (m u : str) :
  In ","%char m -> find_str tvg_logo_key m = None -> find_str group_title_key m = None ->
  exists it, parse_entry m u = Some it /\ group it = [] /\ logo it = None.
Proof.
  intros Hc Hl Hg. unfold parse_entry, rfind.
  destruct (rfind_from_some _ _ 0 Hc) as [j Hj]. rewrite Hj.
  rewrite !attribute_firstn_none by assumption.
  eexists. split; [reflexivity|]. split; reflexivity.
Qed.

(** C10: while looking for the next metadata line, [read_entry] skips any
    line whose trimmed text does not start with [#EXTINF] (blank lines,
    comments, and also a URL line without a metadata line before it): such a
    line changes neither the entry read next nor the result of [parse], so it
    never yields an item and never causes an error. *)
Theorem non_metadata_line_skipped (h l rest : str) :
  ~ In lf h -> ~ In lf l -> starts_with (s "#EXTINF") (trim l) = false ->
  read_entry (l ++ lf :: rest) = read_entry rest /\
  parse (h ++ lf :: l ++ lf :: rest) = parse (h ++ lf :: rest).
Proof.
  intros Hh Hn Hx. split; [apply read_entry_skip_line; assumption|].
  rewrite !parse_header_line by exact Hh.
  destruct (header_ok h); [|reflexivity].
  f_equal. apply parse_entries_skip_line; auto.
Qed.

Lemma non_metadata_line_skipped_witness :
  let h := s "#EXTM3U" in
  let l := s "http://x/orphan.mkv" in
  let rest := ln "#EXTINF:-1,T" ++ ln "http://x/a.mkv" in
  ~ In lf h /\ ~ In lf l /\ starts_with (s "#EXTINF") (trim l) = false /\
  (read_entry (l ++ lf :: rest) = read_entry rest /\
   parse (h ++ lf :: l ++ lf :: rest) = parse (h ++ lf :: rest)).
Proof.
  intros h l rest.
  assert (H1 : ~ In lf h) by (vm_compute; intuition discriminate).
  assert (H2 : ~ In lf l) by (vm_compute; intuition discriminate).
  assert (H3 : starts_with (s "#EXTINF") (trim l) = false) by (vm_compute; reflexivity).
  split; [exact H1|]. split; [exact H2|]. split; [exact H3|].
  exact (non_metadata_line_skipped h l rest H1 H2 H3).
Defined.

Lemma parse_entries_S (k : nat) (x : str) :
  parse_entries (S k) x =
  match read_entry x with
  | None => []
  | Some (metadata, u, rest') =>
      match parse_entry metadata u with
      | Some item => item :: parse_entries k rest'
      | None => parse_entries k rest'
      end
  end.
Proof. reflexivity. Qed.

Lemma read_metadata_nil (n : nat) : read_metadata n [] = None.
Proof. destruct n; reflexivity. Qed.

Lemma parse_first_line (c line rest : str) :
  read_line c = Some (line, rest) ->
  (header_ok line = false -> parse c = Err err_header) /\
  (header_ok line = true -> parse c = Ok (parse_entries (S (length rest)) rest)).
Proof.
  intros E.
  destruct (parse_cases c) as [[-> _]|(line' & rest' & E' & [[Hb Hp]|[Hb Hp]])];
    [discriminate| |]; rewrite E in E'; inversion E'; subst; split; intros; congruence.
Qed.

(** Documents as the reader sees them.  A line is [lf]-terminated text
    without [lf]; [read_entry] skips the lines that are not [#EXTINF] lines,
    takes the next [#EXTINF] line as metadata, skips the blank and comment
    lines after it, and takes the next line as the URL. *)
Lemma drop_while_suffix (p : ascii -> bool) (l : str) :
  exists pre, l = pre ++ drop_while p l.
Proof.
  induction l as [|c l [pre IH]]; simpl; [exists []; reflexivity|].
  destruct (p c); [exists (c :: pre); simpl; congruence | exists []; reflexivity].
Qed.

Definition lines_text (ls : list str) : str := flat_map (fun l => l ++ [lf]) ls.

Definition no_lf (l : str) : bool := negb (contains_char lf l).

Definition is_skip_line (l : str) : bool :=
  no_lf l && negb (starts_with (s "#EXTINF") (trim l)).
Definition is_meta_line (m : str) : bool :=
  no_lf m && starts_with (s "#EXTINF") (trim m).
Definition is_noise_line (l : str) : bool :=
  no_lf l && (is_empty (trim l) || starts_with (s "#") (trim l)).
Definition is_url_line (u : str) : bool :=
  no_lf u && negb (is_empty (trim u)) && negb (starts_with (s "#") (trim u)).

(** An entry of a document: skipped lines, the metadata line, the blank or
    comment lines after it, and the URL line. *)
Definition raw_entry := (list str * str * list str * str)%type.

Definition block_text (e : raw_entry) : str :=
  let '(sk, m, mid, u) := e in lines_text sk ++ m ++ lf :: lines_text mid ++ u ++ [lf].

Definition block_ok (e : raw_entry) : bool :=
  let '(sk, m, mid, u) := e in
  forallb is_skip_line sk && is_meta_line m && forallb is_noise_line mid && is_url_line u.

Definition blocks_text (es : list raw_entry) : str := flat_map block_text es.

(** The items of the entry loop started at [r]. *)
Definition entries_from (r : str) : list M3UItem := parse_entries (S (length r)) r.

(** What one entry contributes: the item [parse_entry] makes of its two
    lines, if any. *)
Definition block_items (e : raw_entry) : list M3UItem :=
  let '(_, m, _, u) := e in
  match parse_entry (trim_end_matches "013"%char m) (trim_end_matches "013"%char u) with
  | Some it => [it]
  | None => []
  end.

Lemma no_lf_not_in (l : str) : no_lf l = true -> ~ In lf l.
Proof.
  unfold no_lf, contains_char. intros H Hin. apply negb_true_iff in H.
  assert (E : existsb (ascii_eqb lf) l = true)
    by (apply existsb_exists; exists lf; split; [exact Hin|apply ascii_eqb_refl]).
  congruence.
Qed.

Lemma split_line_nolf (l : str) : ~ In lf l -> split_line l = (l, []).
Proof.
  induction l as [|c l IH]; intros Hn; [reflexivity|]. simpl.
  destruct (ascii_eqb c "010"%char) eqn:E.
  - apply ascii_eqb_true in E. subst. exfalso. apply Hn. left. reflexivity.
  - rewrite IH by (intros H; apply Hn; right; exact H). reflexivity.
Qed.

Lemma read_line_last (l : str) :
  ~ In lf l -> l <> [] -> read_line l = Some (trim_end_matches "013"%char l, []).
Proof.
  intros Hn Hne. unfold read_line. destruct l as [|c t]; [contradiction|].
  rewrite (split_line_nolf (c :: t) Hn). reflexivity.
Qed.

Lemma lines_text_cons (l : str) (ls : list str) (X : str) :
  lines_text (l :: ls) ++ X = l ++ lf :: (lines_text ls ++ X).
Proof. simpl. rewrite <- !app_assoc. reflexivity. Qed.

Lemma read_metadata_skip (sk : list str) (X : str) :
  forall n, forallb is_skip_line sk = true -> length (lines_text sk ++ X) < n ->
  read_metadata n (lines_text sk ++ X) = read_metadata (S (length X)) X.
Proof.
  induction sk as [|l sk IH]; intros n Hs Hn.
  - apply read_metadata_fuel; simpl in *; lia.
  - simpl in Hs. apply andb_prop in Hs as [Hl Hs]. unfold is_skip_line in Hl.
    apply andb_prop in Hl as [Hl1 Hl2]. apply negb_true_iff in Hl2.
    rewrite lines_text_cons in Hn |- *.
    destruct n as [|n]; [lia|]. cbn [read_metadata].
    rewrite read_line_app by (apply no_lf_not_in, Hl1). cbv zeta.
    rewrite trim_trim_end_matches_cr, Hl2.
    rewrite length_app in Hn. simpl in Hn.
    destruct (_ || _); apply IH; auto; lia.
Qed.

Lemma read_url_noise (mid : list str) (X : str) :
  forall n, forallb is_noise_line mid = true -> length (lines_text mid ++ X) < n ->
  read_url n (lines_text mid ++ X) = read_url (S (length X)) X.
Proof.
  induction mid as [|l mid IH]; intros n Hs Hn.
  - apply read_url_fuel; simpl in *; lia.
  - simpl in Hs. apply andb_prop in Hs as [Hl Hs]. unfold is_noise_line in Hl.
    apply andb_prop in Hl as [Hl1 Hl2].
    rewrite lines_text_cons in Hn |- *.
    destruct n as [|n]; [lia|]. cbn [read_url].
    rewrite read_line_app by (apply no_lf_not_in, Hl1). cbv zeta.
    rewrite trim_trim_end_matches_cr.
    replace (negb (is_empty (trim l)) && negb (starts_with (s "#") (trim l))) with false
      by (destruct (is_empty (trim l)), (starts_with (s "#") (trim l)); simpl in *; congruence).
    rewrite length_app in Hn. simpl in Hn. apply IH; auto; lia.
Qed.

Lemma read_entry_block (sk : list str) (m : str) (mid : list str) (u : str) (Y : str) :
  block_ok (sk, m, mid, u) = true ->
  read_entry (block_text (sk, m, mid, u) ++ Y) =
  Some (trim_end_matches "013"%char m, trim_end_matches "013"%char u, Y).
Proof.
  unfold block_ok. intros H. apply andb_prop in H as [H Hu].
  apply andb_prop in H as [H Hmid]. apply andb_prop in H as [Hsk Hm].
  unfold is_meta_line in Hm. apply andb_prop in Hm as [Hm1 Hm2].
  unfold is_url_line in Hu. apply andb_prop in Hu as [Hu Hu3]. apply andb_prop in Hu as [Hu1 Hu2].
  apply negb_true_iff in Hu2, Hu3.
  unfold block_text, read_entry. rewrite <- !app_assoc. cbn [app].
  rewrite read_metadata_skip by (auto; lia).
  rewrite read_metadata_extinf by (auto using no_lf_not_in).
  rewrite <- app_assoc. cbn [app].
  rewrite read_url_noise by (auto; lia).
  rewrite <- ?app_assoc. cbn [app].
  rewrite read_url_line by (auto using no_lf_not_in).
  reflexivity.
Qed.

Lemma entries_block (e : raw_entry) (Y : str) :
  block_ok e = true -> entries_from (block_text e ++ Y) = block_items e ++ entries_from Y.
Proof.
  destruct e as [[[sk m] mid] u]. intros H. unfold entries_from at 1.
  rewrite parse_entries_S, (read_entry_block sk m mid u Y H).
  assert (Hl : length Y < length (block_text (sk, m, mid, u) ++ Y)).
  { unfold block_text. rewrite <- !app_assoc, !length_app. simpl. rewrite !length_app. simpl. lia. }
  unfold block_items, entries_from.
  destruct (parse_entry _ _); [cbn [app]; f_equal|]; apply parse_entries_fuel; lia.
Qed.

Lemma entries_blocks (es : list raw_entry) (Y : str) :
  forallb block_ok es = true ->
  entries_from (blocks_text es ++ Y) = flat_map block_items es ++ entries_from Y.
Proof.
  induction es as [|e es IH]; intros H; [reflexivity|].
  simpl in H. apply andb_prop in H as [He Hes].
  unfold blocks_text. cbn [flat_map]. rewrite <- app_assoc.
  rewrite (entries_block e _ He). fold (blocks_text es). rewrite IH by exact Hes.
  rewrite app_assoc. reflexivity.
Qed.

Lemma parse_body (h X : str) (P : list M3UItem) :
  ~ In lf h -> parse (h ++ lf :: X) = Ok P -> header_ok h = true /\ P = entries_from X.
Proof.
  intros Hh. rewrite parse_header_line by exact Hh.
  destruct (header_ok h); [|discriminate]. intros E. injection E as <-. auto.
Qed.

Lemma parse_body_ok (h X : str) :
  ~ In lf h -> header_ok h = true -> parse (h ++ lf :: X) = Ok (entries_from X).
Proof. intros Hh Ho. rewrite parse_header_line, Ho by exact Hh. reflexivity. Qed.

Lemma parse_blocks (h : str) (es : list raw_entry) (P : list M3UItem) :
  ~ In lf h -> forallb block_ok es = true -> parse (h ++ lf :: blocks_text es) = Ok P ->
  header_ok h = true /\ P = flat_map block_items es.
Proof.
  intros Hh Hes E. destruct (parse_body _ _ _ Hh E) as [Ho ->]. split; [exact Ho|].
  rewrite <- (app_nil_r (blocks_text es)), entries_blocks by exact Hes.
  rewrite app_nil_r. reflexivity.
Qed.

Lemma drop_while_keep (f : ascii -> bool) (c : ascii) (l : str) :
  In c l -> f c = false -> In c (drop_while f l).
Proof.
  induction l as [|d l IH]; intros Hin Hf; [destruct Hin|]. simpl.
  destruct (f d) eqn:E; [|exact Hin].
  destruct Hin as [<-|Hin]; [congruence|exact (IH Hin Hf)].
Qed.

Lemma in_trim_end_matches (d c : ascii) (l : str) :
  In c l -> ascii_eqb d c = false -> In c (trim_end_matches d l).
Proof.
  intros Hin Hc. unfold trim_end_matches. apply in_rev. rewrite rev_involutive.
  apply drop_while_keep; [apply in_rev; rewrite rev_involutive; exact Hin|exact Hc].
Qed.

Lemma starts_with_app_false (p x y : str) :
  starts_with p (x ++ y) = false -> starts_with p x = false.
Proof.
  intros H. destruct (starts_with p x) eqn:E; [|reflexivity].
  rewrite (starts_with_app _ _ y E) in H. exact H.
Qed.

Lemma find_str_from_app_prefix (p x y : str) :
  forall i, find_str_from i p (x ++ y) = None -> find_str_from i p x = None.
Proof.
  induction x as [|a x IH]; intros i H.
  - destruct p as [|b p]; [unfold find_str_from in H; destruct y; discriminate|reflexivity].
  - simpl in H |- *. destruct (starts_with p (a :: x ++ y)) eqn:E; [discriminate|].
    change (a :: x ++ y) with ((a :: x) ++ y) in E.
    rewrite (starts_with_app_false _ _ _ E). exact (IH (S i) H).
Qed.

Lemma trim_end_matches_prefix (d : ascii) (m : str) : exists w, m = trim_end_matches d m ++ w.
Proof.
  destruct (drop_while_suffix (ascii_eqb d) (rev m)) as [pre Hpre].
  exists (rev pre). unfold trim_end_matches. rewrite <- rev_app_distr, <- Hpre, rev_involutive.
  reflexivity.
Qed.

Lemma find_str_trim_end_matches (p m : str) :
  find_str p m = None -> find_str p (trim_end_matches "013"%char m) = None.
Proof.
  unfold find_str. intros H. destruct (trim_end_matches_prefix "013"%char m) as [w Hw].
  apply (find_str_from_app_prefix _ _ w). rewrite <- Hw. exact H.
Qed.

(** C3 (amended): [parse] fails in exactly two cases, an empty input
    ("Empty file") and a first line whose trimmed text does not start with
    [#EXTM3U] (missing header); every document that passes the header check
    gives [Ok].  Wherever an entry stands among well-formed entries, and
    whatever lines follow it:
    - an entry whose metadata line has no comma is dropped: the result is
      the items before it followed by the items after it;
    - a metadata line with no URL line after it before the input ends
      (only blank or comment lines, or nothing) is dropped: the result is
      the items before it;
    - an entry whose metadata line has a comma but neither a [tvg-logo] nor
      a [group-title] attribute is kept, in place, with an empty group and
      no logo. *)
Theorem parse_errors_and_leniency :
  (forall c, parse c = Err err_empty <-> c = []) /\
  (forall c line rest, read_line c = Some (line, rest) ->
     (header_ok line = false -> parse c = Err err_header) /\
     (header_ok line = true -> exists items, parse c = Ok items)) /\
  (forall h es sk m mid u rest P R,
     ~ In lf h -> forallb block_ok es = true -> block_ok (sk, m, mid, u) = true ->
     contains_char ","%char m = false ->
     parse (h ++ lf :: blocks_text es) = Ok P -> parse (h ++ lf :: rest) = Ok R ->
     parse (h ++ lf :: blocks_text es ++ block_text (sk, m, mid, u) ++ rest) = Ok (P ++ R)) /\
  (forall h es sk m mid l P,
     ~ In lf h -> forallb block_ok es = true -> forallb is_skip_line sk = true ->
     is_meta_line m = true -> forallb is_noise_line mid = true -> is_noise_line l = true ->
     parse (h ++ lf :: blocks_text es) = Ok P ->
     parse (h ++ lf :: blocks_text es ++ lines_text sk ++ m ++ lf :: lines_text mid ++ l) = Ok P /\
     parse (h ++ lf :: blocks_text es ++ lines_text sk ++ m) = Ok P) /\
  (forall h es sk m mid u rest P R,
     ~ In lf h -> forallb block_ok es = true -> block_ok (sk, m, mid, u) = true ->
     contains_char ","%char m = true ->
     find_str tvg_logo_key m = None -> find_str group_title_key m = None ->
     parse (h ++ lf :: blocks_text es) = Ok P -> parse (h ++ lf :: rest) = Ok R ->
     exists it,
       parse (h ++ lf :: blocks_text es ++ block_text (sk, m, mid, u) ++ rest) = Ok (P ++ it :: R) /\
       group it = [] /\ logo it = None).
Proof.
  split; [|split; [|split; [|split]]].
  - intros c. split; [|intros ->; reflexivity].
    intros H. destruct (parse_cases c) as [[-> _]|(line & rest & _ & [[_ Hp]|[_ Hp]])];
      auto; rewrite Hp in H; inversion H.
  - intros c line rest E. destruct (parse_first_line c line rest E) as [H1 H2].
    split; [exact H1|]. intros Hh. eexists. apply H2, Hh.
  - intros h es sk m mid u rest P R Hh Hes He Hc HP HR.
    destruct (parse_blocks h es P Hh Hes HP) as [Ho ->].
    destruct (parse_body h rest R Hh HR) as [_ ->].
    rewrite (parse_body_ok _ _ Hh Ho), entries_blocks, entries_block by assumption.
    unfold block_items. rewrite parse_entry_no_comma; [reflexivity|].
    intros Hin. apply trim_end_matches_in in Hin.
    unfold contains_char in Hc. rewrite (proj2 (existsb_exists _ _) (ex_intro _ ","%char
      (conj Hin (ascii_eqb_refl _)))) in Hc. discriminate.
  - intros h es sk m mid l P Hh Hes Hsk Hm Hmid Hl HP.
    destruct (parse_blocks h es P Hh Hes HP) as [Ho ->].
    unfold is_meta_line in Hm. apply andb_prop in Hm as [Hm1 Hm2].
    unfold is_noise_line in Hl. apply andb_prop in Hl as [Hl1 Hl2].
    assert (Hl' : read_url (S (length l)) l = None).
    { destruct l as [|c l']; [reflexivity|]. cbn [read_url].
      rewrite read_line_last by (auto using no_lf_not_in; discriminate). cbv zeta.
      rewrite trim_trim_end_matches_cr.
      destruct (is_empty (trim (c :: l'))), (starts_with (s "#") (trim (c :: l')));
        cbn [negb andb orb] in *; try discriminate;
        destruct (length l'); reflexivity. }
    split; rewrite (parse_body_ok _ _ Hh Ho), entries_blocks by exact Hes;
      rewrite <- (app_nil_r (flat_map block_items es)) at 2; f_equal;
      unfold entries_from; rewrite parse_entries_S; unfold read_entry;
      rewrite read_metadata_skip by (auto; lia).
    + rewrite read_metadata_extinf by (auto using no_lf_not_in).
      rewrite read_url_noise by (auto; lia). rewrite Hl'. reflexivity.
    + destruct m as [|c m'] eqn:Em; [discriminate Hm2|]. rewrite <- Em in *.
      cbn [read_metadata]. rewrite read_line_last by (auto using no_lf_not_in; rewrite Em; discriminate).
      cbv zeta. rewrite trim_trim_end_matches_cr, Hm2. reflexivity.
  - intros h es sk m mid u rest P R Hh Hes He Hc Hlg Hgr HP HR.
    destruct (parse_blocks h es P Hh Hes HP) as [Ho ->].
    destruct (parse_body h rest R Hh HR) as [_ ->].
    assert (Hin : In ","%char (trim_end_matches "013"%char m)).
    { apply in_trim_end_matches; [|reflexivity].
      unfold contains_char in Hc. apply existsb_exists in Hc as (x & Hx & Ex).
      apply ascii_eqb_true in Ex. subst. exact Hx. }
    destruct (parse_entry_no_attributes _ (trim_end_matches "013"%char u) Hin
                (find_str_trim_end_matches _ _ Hlg) (find_str_trim_end_matches _ _ Hgr))
      as (it & Hit & Hg & Hlo).
    exists it. split; [|auto].
    rewrite (parse_body_ok _ _ Hh Ho), entries_blocks, entries_block by assumption.
    unfold block_items. rewrite Hit. reflexivity.
Qed.

Definition good_block : raw_entry :=
  ([], s "#EXTINF:-1 group-title=" ++ quote :: s "News" ++ [quote] ++ s ",Daily", [], s "http://x/n.ts").
Definition commaless_block : raw_entry :=
  ([s "# a comment"], s "#EXTINF:-1 without a comma", [s ""; s "#EXTVLCOPT:x"], s "http://x/a.mkv").
Definition plain_block : raw_entry :=
  ([], s "#EXTINF:-1,Plain", [s "# note"], s "http://x/p.mkv").

Definition items_of (c : str) : list M3UItem :=
  match parse c with Ok l => l | Err _ => [] end.

Lemma parse_errors_and_leniency_witness :
  let h := s "#EXTM3U" in
  let es := [good_block] in
  let rest := blocks_text [good_block] in
  parse (h ++ lf :: blocks_text es ++ block_text commaless_block ++ rest) =
    Ok (items_of (h ++ lf :: blocks_text es) ++ items_of (h ++ lf :: rest)) /\
  (parse (h ++ lf :: blocks_text es ++ lines_text [s "#x"] ++ s "#EXTINF:-1,Lost" ++
            lf :: lines_text [s ""] ++ s "# end") = Ok (items_of (h ++ lf :: blocks_text es)) /\
   parse (h ++ lf :: blocks_text es ++ lines_text [s "#x"] ++ s "#EXTINF:-1,Lost") =
     Ok (items_of (h ++ lf :: blocks_text es))) /\
  exists it,
    parse (h ++ lf :: blocks_text es ++ block_text plain_block ++ rest) =
      Ok (items_of (h ++ lf :: blocks_text es) ++ it :: items_of (h ++ lf :: rest)) /\
    group it = [] /\ logo it = None.
Proof.
  intros h es rest.
  destruct parse_errors_and_leniency as (_ & _ & P3 & P4 & P5).
  assert (Hh : ~ In lf h) by (vm_compute; intuition discriminate).
  assert (Hes : forallb block_ok es = true) by (vm_compute; reflexivity).
  assert (HP : parse (h ++ lf :: blocks_text es) = Ok (items_of (h ++ lf :: blocks_text es)))
    by (vm_compute; reflexivity).
  assert (HR : parse (h ++ lf :: rest) = Ok (items_of (h ++ lf :: rest))) by (vm_compute; reflexivity).
  split; [|split; [split|]].
  - exact (P3 h es [s "# a comment"] (s "#EXTINF:-1 without a comma") [s ""; s "#EXTVLCOPT:x"]
             (s "http://x/a.mkv") rest _ _ Hh Hes (eq_refl true) (eq_refl false) HP HR).
  - exact (proj1 (P4 h es [s "#x"] (s "#EXTINF:-1,Lost") [s ""] (s "# end") _ Hh Hes
                   (eq_refl true) (eq_refl true) (eq_refl true) (eq_refl true) HP)).
  - exact (proj2 (P4 h es [s "#x"] (s "#EXTINF:-1,Lost") [s ""] (s "# end") _ Hh Hes
                   (eq_refl true) (eq_refl true) (eq_refl true) (eq_refl true) HP)).
  - exact (P5 h es [] (s "#EXTINF:-1,Plain") [s "# note"] (s "http://x/p.mkv") rest _ _ Hh Hes (eq_refl true) (eq_refl true) (eq_refl None) (eq_refl None) HP HR).
Defined.

(** C7 (amended): [parse] fails with the missing-header error exactly when
    the input has a first line and that line, trimmed, does not start with
    [#EXTM3U]; only the very first line is checked, so a blank line before
    the header line makes [parse] fail with that error. *)
Theorem header_on_first_line :
  (forall c, parse c = Err err_header <->
     exists line rest, read_line c = Some (line, rest) /\ header_ok line = false) /\
  (forall r, parse (lf :: r) = Err err_header).
Proof.
  split.
  - intros c. split.
    + intros H. destruct (parse_cases c) as [[-> Hp]|(line & rest & E & [[Hb Hp]|[Hb Hp]])].
      * rewrite Hp in H. inversion H.
      * eauto.
      * rewrite Hp in H. discriminate.
    + intros (line & rest & E & Hb). apply (parse_first_line c line rest E), Hb.
  - intros r. reflexivity.
Qed.

(** ** Year detection on a wrapped year *)

Fixpoint has_year (l : str) : bool :=
  match l with
  | [] => false
  | _ :: t => is_some (year_at l) || has_year t
  end.

Lemma year_at_digits (l ys : str) :
  year_at l = Some ys ->
  exists a b c d r, l = a :: b :: c :: d :: r /\ ys = [a; b; c; d] /\
    is_digit a = true /\ is_digit b = true /\ is_digit c = true /\ is_digit d = true.
Proof.
  destruct l as [|a [|b [|c [|d r]]]]; simpl; try discriminate.
  destruct (((ascii_eqb a "1" && ascii_eqb b "9") || (ascii_eqb a "2" && ascii_eqb b "0"))%char
            && is_digit c && is_digit d) eqn:E; [|discriminate].
  intros H; inversion H; subst.
  apply andb_prop in E as [E Hd]. apply andb_prop in E as [Hab Hc].
  exists a, b, c, d, r. repeat split; auto;
    apply orb_prop in Hab as [Hab|Hab]; apply andb_prop in Hab as [Ha Hb];
    apply ascii_eqb_true in Ha; apply ascii_eqb_true in Hb; subst; reflexivity.
Qed.

Lemma ws_not_digit (c : ascii) : is_ws c = true -> is_digit c = false.
Proof.
  unfold is_ws, is_digit. intros H.
  apply orb_prop in H as [H|H].
  - apply andb_prop in H as [H1 H2]. apply Nat.leb_le in H1. apply Nat.leb_le in H2.
    destruct (48 <=? nat_of_ascii c) eqn:E; auto. apply Nat.leb_le in E. lia.
  - apply Nat.eqb_eq in H. rewrite H. reflexivity.
Qed.

Lemma year_at_nondigit_app (z y : str) (n : ascii) :
  is_digit n = false -> year_at (z ++ n :: y) = year_at z.
Proof.
  intros Hn.
  destruct z as [|a [|b [|c [|d z']]]]; [| | | |reflexivity];
    (destruct (year_at _) as [ys|] eqn:E; [|reflexivity]);
    apply year_at_digits in E as (a' & b' & c' & d' & r & Hl & _ & Ha & Hb & Hc & Hd);
    simpl in Hl; inversion Hl; subst; congruence.
Qed.

Lemma year_at_app (z y ys : str) : year_at z = Some ys -> year_at (z ++ y) = Some ys.
Proof.
  intros H. pose proof (year_at_digits _ _ H) as (a & b & c & d & r & -> & _).
  rewrite <- H. reflexivity.
Qed.

Lemma has_year_nondigit_app (x y : str) (n : ascii) :
  is_digit n = false -> has_year (x ++ n :: y) = has_year x || has_year y.
Proof.
  intros Hn. induction x as [|a x IH].
  - pose proof (year_at_nondigit_app [] y n Hn) as E. cbn [app] in E |- *.
    cbn [has_year]. rewrite E. reflexivity.
  - change (has_year ((a :: x) ++ n :: y))
      with (is_some (year_at ((a :: x) ++ n :: y)) || has_year (x ++ n :: y)).
    rewrite year_at_nondigit_app, IH by exact Hn. simpl. apply orb_assoc.
Qed.

Lemma has_year_app_l (x y : str) : has_year x = true -> has_year (x ++ y) = true.
Proof.
  induction x as [|a x IH]; [discriminate|].
  change (has_year (a :: x)) with (is_some (year_at (a :: x)) || has_year x).
  change (has_year ((a :: x) ++ y))
    with (is_some (year_at ((a :: x) ++ y)) || has_year (x ++ y)).
  intros H. destruct (year_at (a :: x)) eqn:E.
  - rewrite (year_at_app _ _ _ E). reflexivity.
  - simpl in H. rewrite (IH H). apply orb_true_r.
Qed.

Lemma has_year_app_r (x y : str) : has_year y = true -> has_year (x ++ y) = true.
Proof.
  induction x as [|a x IH]; simpl; auto. intros H. rewrite IH by exact H. apply orb_true_r.
Qed.

Lemma has_year_infix (a m b : str) : has_year (a ++ m ++ b) = false -> has_year m = false.
Proof.
  intros H. destruct (has_year m) eqn:E; auto.
  rewrite (has_year_app_r a _ (has_year_app_l m b E)) in H. discriminate.
Qed.

Lemma has_year_find_none (l : str) :
  forall i, find_at year_at i l = None <-> has_year l = false.
Proof.
  induction l as [|a l IH]; intros i; cbn [find_at has_year]; [simpl; tauto|].
  destruct (year_at (a :: l)); simpl; [split; intros H; discriminate H|]. apply IH.
Qed.

Lemma trim_infix (l : str) : exists a b, l = a ++ trim l ++ b.
Proof.
  destruct (drop_while_suffix is_ws (rev l)) as [pre Hpre].
  destruct (drop_while_suffix is_ws (trim_end l)) as [pre' Hpre'].
  exists pre', (rev pre). unfold trim, trim_start. rewrite app_assoc, <- Hpre'.
  unfold trim_end. rewrite <- rev_app_distr, <- Hpre, rev_involutive. reflexivity.
Qed.

Lemma has_year_split_ws (l : str) :
  forall cur, has_year (rev cur ++ l) = existsb has_year (split_ws_aux cur l).
Proof.
  induction l as [|c l IH]; intros cur; simpl.
  - rewrite app_nil_r. destruct cur as [|x cur]; simpl; [reflexivity|].
    rewrite orb_false_r. reflexivity.
  - destruct (is_ws c) eqn:Ews.
    + rewrite has_year_nondigit_app by (apply ws_not_digit; exact Ews).
      destruct cur as [|x cur].
      * simpl. rewrite <- (IH []). reflexivity.
      * simpl existsb. rewrite <- (IH []). reflexivity.
    + rewrite <- (IH (c :: cur)). simpl. rewrite <- app_assoc. reflexivity.
Qed.

Lemma has_year_join (ws : list str) :
  has_year (join (s " ") ws) = existsb has_year ws.
Proof.
  induction ws as [|w ws IH]; [reflexivity|].
  destruct ws as [|w' ws].
  - simpl. rewrite orb_false_r. reflexivity.
  - change (join (s " ") (w :: w' :: ws)) with (w ++ " "%char :: join (s " ") (w' :: ws)).
    rewrite has_year_nondigit_app by reflexivity. rewrite IH. reflexivity.
Qed.

Definition normalize_ws (l : str) : str := join (s " ") (split_whitespace (trim l)).

Lemma normalize_ws_no_year (l : str) : has_year l = false -> has_year (normalize_ws l) = false.
Proof.
  intros H. unfold normalize_ws, split_whitespace.
  rewrite has_year_join, <- (has_year_split_ws _ []). simpl.
  destruct (trim_infix l) as (a & b & E). rewrite E in H.
  eapply has_year_infix. exact H.
Qed.

Lemma find_at_year_skip (x r : str) (n : ascii) :
  forall i, has_year x = false -> is_digit n = false ->
  find_at year_at i (x ++ n :: r) = find_at year_at (S (i + length x)) r.
Proof.
  induction x as [|a x IH]; intros i Hx Hn.
  - pose proof (year_at_nondigit_app [] r n Hn) as E. cbn [app] in E |- *.
    cbn [find_at]. rewrite E. rewrite Nat.add_0_r. reflexivity.
  - change (has_year (a :: x)) with (is_some (year_at (a :: x)) || has_year x) in Hx.
    apply orb_false_elim in Hx as [Ha Hx].
    change ((a :: x) ++ n :: r) with (a :: (x ++ n :: r)).
    pose proof (year_at_nondigit_app (a :: x) r n Hn) as E. cbn [app] in E.
    cbn [find_at]. rewrite E.
    destruct (year_at (a :: x)); [discriminate|].
    rewrite IH by assumption. f_equal. simpl. lia.
Qed.

Lemma find_at_hit {A : Type} (m : str -> option A) (i : nat) (l : str) (a : A) :
  m l = Some a -> find_at m i l = Some (i, a).
Proof. intros H. destruct l; simpl; rewrite H; reflexivity. Qed.

Lemma parse_u32_year (l ys : str) :
  year_at l = Some ys -> parse_u32 ys = Some (digits_value 0 ys).
Proof.
  intros H. destruct (year_at_digits _ _ H) as (a & b & c & d & r & _ & -> & Ha & Hb & Hc & Hd).
  unfold parse_u32.
  destruct (ascii_eqb a "+") eqn:E.
  { apply ascii_eqb_true in E. subst. discriminate Ha. }
  cbn [is_empty negb forallb]. rewrite Ha, Hb, Hc, Hd. cbn [andb].
  apply is_digit_bounds in Ha. apply is_digit_bounds in Hb.
  apply is_digit_bounds in Hc. apply is_digit_bounds in Hd.
  assert (Hv : digits_value 0 [a; b; c; d] < 10 * 10 * 10 * 10) by (cbn; unfold digit_val; lia).
  destruct (N.of_nat (digits_value 0 [a; b; c; d]) <? 4294967296)%N eqn:L; [reflexivity|].
  exfalso. apply N.ltb_ge in L. lia.
Qed.

Lemma firstn_length_app (p l : str) : firstn (length p) (p ++ l) = p.
Proof. induction p as [|x p IH]; simpl; congruence. Qed.

Lemma skipn_length_app (p l : str) (k : nat) : skipn (length p + k) (p ++ l) = skipn k l.
Proof. induction p as [|x p IH]; simpl; auto. Qed.

Lemma nth_length_app (p l : str) (k : nat) (d : ascii) : nth (length p + k) (p ++ l) d = nth k l d.
Proof. induction p as [|x p IH]; simpl; auto. Qed.

Lemma open_delim_not_digit (o : ascii) : is_open_delim o = true -> is_digit o = false.
Proof.
  unfold is_open_delim. intros H. apply orb_prop in H as [H|H];
    apply ascii_eqb_true in H; subst; reflexivity.
Qed.

(** C4 (amended): for every title [P ++ o :: Y ++ c :: Q] where [o] is ['(']
    or ['['], [c] is [')'] or [']'], [Y] is a 4-digit year starting with 19
    or 20, and [P ++ Q] contains no match of the year pattern, [detect_year]
    returns [Y] and the cleaned title [P ++ Q] (whitespace collapsed and
    trimmed), which excludes the year and its brackets, and [detect_year]
    finds nothing in that cleaned title. *)
Theorem detect_year_wrapped_unique (p q y : str) (o c : ascii) :
  is_open_delim o = true -> is_close_delim c = true -> year_at y = Some y ->
  find_at year_at 0 (p ++ q) = None ->
  detect_year (p ++ o :: y ++ c :: q) =
    Some {| year := digits_value 0 y; year_cleaned_title := normalize_ws (p ++ q) |} /\
  detect_year (normalize_ws (p ++ q)) = None.
Proof.
  intros Ho Hc Hy Hn.
  apply has_year_find_none in Hn.
  assert (Hp : has_year p = false).
  { destruct (has_year p) eqn:E; auto. rewrite (has_year_app_l p q E) in Hn. discriminate. }
  pose proof (parse_u32_year _ _ Hy) as Hparse.
  destruct (year_at_digits _ _ Hy) as (a & b & cc & d & r & Hyl & Hys & _).
  rewrite Hys in Hy, Hparse |- *. clear Hyl Hys r.
  split.
  - remember (p ++ o :: [a; b; cc; d] ++ c :: q) as t eqn:Ht.
    assert (F : find_at year_at 0 t = Some (S (length p), [a; b; cc; d])).
    { subst t. rewrite (find_at_year_skip p _ o 0 Hp (open_delim_not_digit o Ho)).
      apply find_at_hit, year_at_app, Hy. }
    assert (Lt : length t = length p + 6 + length q)
      by (subst t; rewrite length_app; simpl; lia).
    assert (N1 : nth (S (length p) - 1) t nul = o).
    { subst t. replace (S (length p) - 1) with (length p + 0) by lia.
      rewrite nth_length_app. reflexivity. }
    assert (N2 : nth (S (length p) + length [a; b; cc; d]) t nul = c).
    { subst t. replace (S (length p) + length [a; b; cc; d]) with (length p + 5)
        by (simpl; lia).
      rewrite nth_length_app. reflexivity. }
    unfold detect_year. rewrite F, Hparse. cbv zeta.
    rewrite N1, N2, Ho, Hc, Lt.
    rewrite (proj2 (Nat.ltb_lt 0 (S (length p)))) by lia.
    rewrite (proj2 (Nat.ltb_lt (S (length p) + length [a; b; cc; d])
                               (length p + 6 + length q))) by (simpl; lia).
    change (true && true) with true. cbv beta iota.
    replace (S (length p) - 1) with (length p) by lia.
    replace (S (length p) + length [a; b; cc; d] + 1) with (length p + 6) by (simpl; lia).
    assert (C : (if 0 <? length p then firstn (length p) t else []) ++
                (if length p + 6 <? length p + 6 + length q then skipn (length p + 6) t else [])
                = p ++ q).
    { f_equal.
      - destruct p as [|x p']; [reflexivity|]. simpl (0 <? _). cbv iota.
        subst t. apply firstn_length_app.
      - destruct (length p + 6 <? length p + 6 + length q) eqn:E.
        + subst t. rewrite skipn_length_app. reflexivity.
        + apply Nat.ltb_ge in E. destruct q; [reflexivity|simpl in E; lia]. }
    rewrite C. reflexivity.
  - unfold detect_year.
    rewrite (proj2 (has_year_find_none _ 0) (normalize_ws_no_year _ Hn)). reflexivity.
Qed.

Lemma detect_year_wrapped_unique_witness :
  is_open_delim "("%char = true /\ is_close_delim ")"%char = true /\
  year_at (s "2022") = Some (s "2022") /\
  find_at year_at 0 (s "Night at the Museum " ++ s " Part 2") = None /\
  (detect_year (s "Night at the Museum " ++ "("%char :: s "2022" ++ ")"%char :: s " Part 2") =
     Some {| year := digits_value 0 (s "2022");
             year_cleaned_title := normalize_ws (s "Night at the Museum " ++ s " Part 2") |} /\
   detect_year (normalize_ws (s "Night at the Museum " ++ s " Part 2")) = None).
Proof.
  assert (H1 : is_open_delim "("%char = true) by reflexivity.
  assert (H2 : is_close_delim ")"%char = true) by reflexivity.
  assert (H3 : year_at (s "2022") = Some (s "2022")) by reflexivity.
  assert (H4 : find_at year_at 0 (s "Night at the Museum " ++ s " Part 2") = None)
    by (vm_compute; reflexivity).
  split; [exact H1|]. split; [exact H2|]. split; [exact H3|]. split; [exact H4|].
  exact (detect_year_wrapped_unique _ _ _ _ _ H1 H2 H3 H4).
Defined.

(** ** Agreement of the two episode strategies *)

(** A character below 128: a one-byte UTF-8 character, on which the byte
    model of the string functions and the Unicode classes of [regex] and
    [char] coincide. *)
Definition is_ascii (c : ascii) : bool := Nat.ltb (nat_of_ascii c) 128.

(** No [s]/[S] of [l] is followed, after optional whitespace, by a digit
    (when only whitespace follows it in [l], the character that follows [l]
    is checked by the caller). *)
Fixpoint no_season_mark (l : str) : bool :=
  match l with
  | [] => true
  | c :: t =>
      (negb (is_S c) || match skip_ws t with
                        | [] => true
                        | n :: _ => negb (is_digit n)
                        end) && no_season_mark t
  end.

Lemma lit_s_is_S (c : ascii) : ascii_eqb (lower "s"%char) (lower c) = is_S c.
Proof. destruct c as [[] [] [] [] [] [] [] []]; reflexivity. Qed.

Lemma lit_e_is_E (c : ascii) : ascii_eqb (lower "e"%char) (lower c) = is_E c.
Proof. destruct c as [[] [] [] [] [] [] [] []]; reflexivity. Qed.

Lemma S_class (c : ascii) : is_S c = true -> is_digit c = false /\ is_ws c = false /\ is_E c = false.
Proof.
  unfold is_S. intros H. apply orb_prop in H as [H|H]; apply ascii_eqb_true in H; subst;
    repeat split; reflexivity.
Qed.

Lemma E_class (c : ascii) : is_E c = true -> is_digit c = false /\ is_ws c = false.
Proof.
  unfold is_E. intros H. apply orb_prop in H as [H|H]; apply ascii_eqb_true in H; subst;
    split; reflexivity.
Qed.

Lemma digit_class (c : ascii) : is_digit c = true -> is_ws c = false /\ is_E c = false.
Proof.
  destruct c as [[] [] [] [] [] [] [] []]; cbv; intros H;
    solve [discriminate H | split; reflexivity].
Qed.

Lemma ws_class (c : ascii) : is_ws c = true -> is_digit c = false /\ is_E c = false.
Proof.
  destruct c as [[] [] [] [] [] [] [] []]; cbv; intros H;
    solve [discriminate H | split; reflexivity].
Qed.

Lemma lookahead_nondigit (n : ascii) (t : str) : is_digit n = false -> lookahead (n :: t) = None.
Proof. intros H. unfold lookahead. rewrite H. reflexivity. Qed.

Lemma lookahead_digits12 (l : str) :
  lookahead l = match digits12 l with Some (g, _) => Some (digits_value 0 g) | None => None end.
Proof.
  destruct l as [|a [|b t]]; [reflexivity| |].
  - unfold lookahead, digits12. destruct (is_digit a); reflexivity.
  - unfold lookahead, digits12. destruct (is_digit a), (is_digit b); reflexivity.
Qed.

Lemma digits12_app (ds rest : str) :
  forallb is_digit ds = true -> 1 <= length ds <= 2 -> is_digit (hd nul rest) = false ->
  digits12 (ds ++ rest) = Some (ds, rest).
Proof.
  intros Hd Hl Hn. destruct ds as [|a [|b [|c ds]]]; simpl in Hl; try lia.
  - simpl in Hd. rewrite andb_true_r in Hd.
    destruct rest as [|n rest]; simpl in *; rewrite Hd; [reflexivity|rewrite Hn; reflexivity].
  - simpl in Hd. rewrite andb_true_r in Hd. apply andb_prop in Hd as [Ha Hb].
    simpl. rewrite Ha, Hb. reflexivity.
Qed.

Lemma digits12_nondigit (n : ascii) (t : str) : is_digit n = false -> digits12 (n :: t) = None.
Proof. intros H. unfold digits12. destruct t; rewrite H; reflexivity. Qed.

Lemma digits12_digit (d : ascii) (r : str) :
  is_digit d = true ->
  exists g rest, digits12 (d :: r) = Some (g, rest) /\ forallb is_digit g = true /\
                 1 <= length g <= 2.
Proof.
  intros H. unfold digits12. destruct r as [|b r]; rewrite H.
  - exists [d], []. simpl. rewrite H. auto.
  - destruct (is_digit b) eqn:Hb.
    + exists [d; b], r. simpl. rewrite H, Hb. auto.
    + exists [d], (b :: r). simpl. rewrite H. auto.
Qed.

Lemma parse_u32_digits (ds : str) :
  forallb is_digit ds = true -> 1 <= length ds <= 2 -> parse_u32 ds = Some (digits_value 0 ds).
Proof.
  intros Hd Hl. destruct ds as [|a ds]; simpl in Hl; [lia|].
  assert (Ha : is_digit a = true) by (simpl in Hd; apply andb_prop in Hd; tauto).
  unfold parse_u32.
  destruct (ascii_eqb a "+") eqn:E.
  { apply ascii_eqb_true in E. subst. discriminate Ha. }
  cbn [is_empty negb andb]. rewrite Hd.
  assert (Hv : digits_value 0 (a :: ds) < 10 * 10).
  { destruct ds as [|b [|c ds]]; simpl in Hl; try lia.
    - apply is_digit_bounds in Ha. cbn. unfold digit_val. lia.
    - simpl in Hd. apply andb_prop in Hd as [_ Hb]. rewrite andb_true_r in Hb.
      apply is_digit_bounds in Ha. apply is_digit_bounds in Hb. cbn. unfold digit_val. lia. }
  destruct (N.of_nat (digits_value 0 (a :: ds)) <? 4294967296)%N eqn:L; [reflexivity|].
  exfalso. apply N.ltb_ge in L. lia.
Qed.

Lemma skip_ws_nonws (n : ascii) (t : str) : is_ws n = false -> skip_ws (n :: t) = n :: t.
Proof. intros H. unfold skip_ws. simpl. rewrite H. reflexivity. Qed.

Lemma skip_ws_app (ws l : str) : forallb is_ws ws = true -> skip_ws (ws ++ l) = skip_ws l.
Proof.
  induction ws as [|w ws IH]; intros H; [reflexivity|].
  simpl in H. apply andb_prop in H as [Hw H].
  unfold skip_ws in *. simpl. rewrite Hw. auto.
Qed.

Lemma drop_while_app (f : ascii -> bool) (a b : str) :
  drop_while f (a ++ b) = match drop_while f a with [] => drop_while f b | l => l ++ b end.
Proof.
  induction a as [|c a IH]; [reflexivity|]. simpl. destruct (f c); [exact IH|reflexivity].
Qed.

Lemma no_season_mark_head (c : ascii) (t : str) (sc : ascii) (X : str) :
  no_season_mark (c :: t) = true -> is_S c = true -> is_digit sc = false -> is_ws sc = false ->
  exists n u, skip_ws (t ++ sc :: X) = n :: u /\ is_digit n = false.
Proof.
  intros Hp Hc Hd Hw. cbn [no_season_mark] in Hp. rewrite Hc in Hp. cbn [negb orb] in Hp.
  apply andb_prop in Hp as [Hn _]. unfold skip_ws in *. rewrite drop_while_app.
  destruct (drop_while is_ws t) as [|n u].
  - exists sc, X. split; [|exact Hd]. simpl. rewrite Hw. reflexivity.
  - exists n, (u ++ sc :: X). split; [reflexivity|]. apply negb_true_iff, Hn.
Qed.

Lemma no_season_mark_next (c : ascii) (t : str) (sc : ascii) (X : str) :
  no_season_mark (c :: t) = true -> is_S c = true -> is_digit sc = false -> is_ws sc = false ->
  is_digit (hd nul (t ++ sc :: X)) = false.
Proof.
  intros Hp Hc Hd Hw. destruct (no_season_mark_head c t sc X Hp Hc Hd Hw) as (n & u & Hs & Hn).
  destruct (t ++ sc :: X) as [|m v]; [reflexivity|]. simpl.
  destruct (is_ws m) eqn:Hm; [apply (ws_class m Hm)|].
  rewrite (skip_ws_nonws m v Hm) in Hs. inversion Hs. subst. exact Hn.
Qed.

Lemma no_season_mark_tail (c : ascii) (t : str) :
  no_season_mark (c :: t) = true -> no_season_mark t = true.
Proof. simpl. intros H. apply andb_prop in H. tauto. Qed.

Lemma manual_scan_step_none (chars l : str) (c : ascii) (i sne : nat) :
  (is_S c = false \/ lookahead l = None) ->
  manual_scan chars i (c :: l) None None sne = manual_scan chars (S i) l None None sne.
Proof.
  intros [H|H]; cbn [manual_scan]; unfold is_none, is_some; [rewrite H|destruct (is_S c); rewrite ?H];
    reflexivity.
Qed.

Lemma manual_scan_step_season (chars l : str) (c : ascii) (i sne sv : nat) :
  is_S c = true -> is_E c = false -> lookahead l = Some sv ->
  manual_scan chars i (c :: l) None None sne =
  manual_scan chars (S i) l (Some sv) None (back_ws chars i).
Proof. intros H1 H2 H3. cbn [manual_scan]. unfold is_none, is_some. rewrite H1, H3, H2. reflexivity. Qed.

Lemma manual_scan_step_mid (chars l : str) (c : ascii) (i sne sv : nat) :
  is_E c = false ->
  manual_scan chars i (c :: l) (Some sv) None sne = manual_scan chars (S i) l (Some sv) None sne.
Proof. intros H. cbn [manual_scan]. unfold is_none, is_some. rewrite H. reflexivity. Qed.

Lemma manual_scan_step_episode (chars l : str) (c : ascii) (i sne sv e : nat) :
  is_E c = true -> lookahead l = Some e ->
  manual_scan chars i (c :: l) (Some sv) None sne = (Some sv, Some e, sne).
Proof. intros H1 H2. cbn [manual_scan]. unfold is_none, is_some. rewrite H1, H2. reflexivity. Qed.

Lemma manual_scan_prefix (chars p X : str) (sc : ascii) (sne : nat) :
  forall i, no_season_mark p = true -> is_digit sc = false -> is_ws sc = false ->
  manual_scan chars i (p ++ sc :: X) None None sne =
  manual_scan chars (i + length p) (sc :: X) None None sne.
Proof.
  induction p as [|c t IH]; intros i Hp Hd Hw.
  - rewrite Nat.add_0_r. reflexivity.
  - change ((c :: t) ++ sc :: X) with (c :: (t ++ sc :: X)).
    rewrite manual_scan_step_none.
    + rewrite IH by (eauto using no_season_mark_tail). replace (i + length (c :: t)) with (S i + length t) by (simpl; lia). reflexivity.
    + destruct (is_S c) eqn:Hc; [right|left; reflexivity].
      pose proof (no_season_mark_next c t sc X Hp Hc Hd Hw) as Hn.
      destruct (t ++ sc :: X) as [|n u]; [reflexivity|].
      apply lookahead_nondigit, Hn.
Qed.

Lemma manual_scan_middle (chars m X : str) (sv sne : nat) :
  forall i, forallb (fun c => negb (is_E c)) m = true ->
  manual_scan chars i (m ++ X) (Some sv) None sne =
  manual_scan chars (i + length m) X (Some sv) None sne.
Proof.
  induction m as [|c t IH]; intros i Hm.
  - rewrite Nat.add_0_r. reflexivity.
  - simpl in Hm. apply andb_prop in Hm as [Hc Hm]. apply negb_true_iff in Hc.
    change ((c :: t) ++ X) with (c :: (t ++ X)).
    rewrite (manual_scan_step_mid _ _ _ _ _ _ Hc).
    rewrite IH by exact Hm. replace (i + length (c :: t)) with (S i + length t) by (simpl; lia). reflexivity.
Qed.

Lemma find_at_sxe_prefix (p X : str) (sc : ascii) :
  forall i, no_season_mark p = true -> is_digit sc = false -> is_ws sc = false ->
  find_at pat_sxe i (p ++ sc :: X) = find_at pat_sxe (i + length p) (sc :: X).
Proof.
  induction p as [|c t IH]; intros i Hp Hd Hw.
  - rewrite Nat.add_0_r. reflexivity.
  - change ((c :: t) ++ sc :: X) with (c :: (t ++ sc :: X)).
    assert (Hnone : pat_sxe (c :: t ++ sc :: X) = None).
    { unfold pat_sxe. change (s "s") with ["s"%char]. cbn [lit_ci].
      rewrite lit_s_is_S. destruct (is_S c) eqn:Hc; [|reflexivity].
      destruct (no_season_mark_head c t sc X Hp Hc Hd Hw) as (n & u & Hs & Hn).
      cbn [lit_ci]. rewrite Hs, (digits12_nondigit n u Hn). reflexivity. }
    cbn [find_at]. rewrite Hnone.
    rewrite IH by (eauto using no_season_mark_tail). replace (i + length (c :: t)) with (S i + length t) by (simpl; lia). reflexivity.
Qed.

Lemma back_ws_app_le (p X : str) (n : nat) :
  n <= length p -> back_ws (p ++ X) n = back_ws p n.
Proof.
  induction n as [|n IH]; intros Hn; [reflexivity|].
  simpl. rewrite app_nth1 by lia. destruct (is_ws (nth n p nul)); [apply IH; lia|reflexivity].
Qed.

Lemma back_ws_trim_end (p : str) : back_ws p (length p) = length (trim_end p).
Proof.
  induction p as [|x p IH] using rev_ind; [reflexivity|].
  rewrite length_app, Nat.add_1_r. simpl.
  replace (nth (length p) (p ++ [x]) nul) with x
    by (replace (length p) with (length p + 0) by lia; rewrite nth_length_app; reflexivity).
  unfold trim_end. rewrite rev_app_distr. simpl.
  destruct (is_ws x).
  - rewrite back_ws_app_le by lia. exact IH.
  - rewrite length_rev. simpl. rewrite length_rev. reflexivity.
Qed.

Lemma trim_end_prefix (p : str) : exists w, p = trim_end p ++ w.
Proof.
  destruct (drop_while_suffix is_ws (rev p)) as [pre Hpre].
  exists (rev pre). unfold trim_end. rewrite <- rev_app_distr, <- Hpre, rev_involutive.
  reflexivity.
Qed.

Lemma drop_while_idem (f : ascii -> bool) (l : str) :
  drop_while f (drop_while f l) = drop_while f l.
Proof.
  induction l as [|c l IH]; [reflexivity|]. simpl. destruct (f c) eqn:E; auto.
  simpl. rewrite E. reflexivity.
Qed.

Lemma trim_end_idem (p : str) : trim_end (trim_end p) = trim_end p.
Proof. unfold trim_end. rewrite rev_involutive, drop_while_idem. reflexivity. Qed.

Lemma trim_trim_end (p : str) : trim (trim_end p) = trim p.
Proof. unfold trim. rewrite trim_end_idem. reflexivity. Qed.

Lemma drop_while_nil (f : ascii -> bool) (l : str) : drop_while f l = [] <-> forallb f l = true.
Proof.
  induction l as [|c l IH]; [simpl; tauto|]. simpl.
  destruct (f c); simpl; [exact IH|split; discriminate].
Qed.

Lemma forallb_rev' (f : ascii -> bool) (l : str) : forallb f (rev l) = forallb f l.
Proof.
  induction l as [|c l IH]; [reflexivity|]. simpl. rewrite forallb_app, IH. simpl.
  rewrite andb_true_r, andb_comm. reflexivity.
Qed.

Lemma trim_nil (p : str) : trim p = [] -> trim_end p = [].
Proof.
  unfold trim, trim_start. intros H. apply drop_while_nil in H.
  rewrite <- forallb_rev' in H. apply drop_while_nil in H.
  rewrite <- trim_end_idem. unfold trim_end at 1. rewrite H. reflexivity.
Qed.

(** The series names of the two strategies, for a season marker at index
    [length p]. *)
Lemma series_names_agree (p X : str) :
  (if 0 <? back_ws (p ++ X) (length p)
   then trim (firstn (back_ws (p ++ X) (length p)) (p ++ X)) else p ++ X) =
  (let name := trim (firstn (length p) (p ++ X)) in
   if is_empty name then p ++ X else name).
Proof.
  rewrite back_ws_app_le, back_ws_trim_end by lia.
  rewrite firstn_length_app. cbv zeta.
  destruct (trim_end_prefix p) as [w Hw].
  assert (F : firstn (length (trim_end p)) (p ++ X) = trim_end p).
  { pose proof (firstn_length_app (trim_end p) (w ++ X)) as E.
    rewrite app_assoc, <- Hw in E. exact E. }
  rewrite F, trim_trim_end.
  destruct (trim p) as [|x y] eqn:Tp.
  - rewrite (trim_nil p Tp). reflexivity.
  - destruct (trim_end p) as [|z v] eqn:Te.
    + unfold trim in Tp. rewrite Te in Tp. discriminate Tp.
    + reflexivity.
Qed.

(** C5 (amended): the two strategies agree on every ASCII title
    [P ++ S ++ D ++ W ++ E ++ d ++ R] where [S] is [s] or [S], [D] is one or
    two digits, [W] is (ASCII) whitespace, [E] is [e] or [E], [d] is a
    digit, and no [s]/[S] of [P] is followed by optional whitespace and a
    digit: both succeed, with the same series name, season and episode.
    [P] and [R] are ASCII: [(?i)s] also matches the long s U+017F and [\d]
    and [\s] are Unicode classes, so outside ASCII the regex sees season
    markers, digits and spaces that [is_ascii_digit] and the byte model do
    not. *)
Theorem manual_pattern1_agree (p ds ws r : str) (sc ec d : ascii) :
  forallb is_ascii p = true -> forallb is_ascii r = true ->
  no_season_mark p = true -> is_S sc = true ->
  forallb is_digit ds = true -> 1 <= length ds <= 2 ->
  forallb is_ws ws = true -> is_E ec = true -> is_digit d = true ->
  exists ep,
    detect_episode_manual (p ++ sc :: ds ++ ws ++ ec :: d :: r) = Some ep /\
    detect_episode_pattern1 (p ++ sc :: ds ++ ws ++ ec :: d :: r) = Some ep.
Proof.
  intros _ _ Hp Hs Hd Hl Hw He Hdd.
  destruct (S_class sc Hs) as (Hsd & Hsw & Hse).
  destruct (E_class ec He) as (Hed & Hew).
  destruct (digits12_digit d r Hdd) as (g & rest & Hg & Hgd & Hgl).
  assert (Hhead : is_digit (hd nul (ws ++ ec :: d :: r)) = false).
  { destruct ws as [|w ws]; [exact Hed|]. simpl in Hw |- *.
    apply andb_prop in Hw as [Hw _]. apply (ws_class w Hw). }
  assert (Hds : digits12 (ds ++ ws ++ ec :: d :: r) = Some (ds, ws ++ ec :: d :: r))
    by (apply digits12_app; assumption).
  assert (HnoE : forallb (fun c => negb (is_E c)) (ds ++ ws) = true).
  { rewrite forallb_app. apply andb_true_intro. split; apply forallb_forall; intros x Hx.
    - apply negb_true_iff. apply (digit_class x). apply (proj1 (forallb_forall _ _) Hd x Hx).
    - apply negb_true_iff. apply (ws_class x). apply (proj1 (forallb_forall _ _) Hw x Hx). }
  set (t := p ++ sc :: ds ++ ws ++ ec :: d :: r).
  exists {| series_name := (let name := trim (firstn (length p) t) in
                            if is_empty name then t else name);
            season := digits_value 0 ds; episode := digits_value 0 g |}.
  split.
  - unfold detect_episode_manual. unfold t at 2.
    rewrite (manual_scan_prefix t p _ sc 0 0 Hp Hsd Hsw). simpl (0 + length p).
    rewrite (manual_scan_step_season t _ sc (length p) 0 (digits_value 0 ds) Hs Hse)
      by (rewrite lookahead_digits12, Hds; reflexivity).
    rewrite app_assoc, (manual_scan_middle t (ds ++ ws) _ _ _ _ HnoE).
    rewrite (manual_scan_step_episode t _ ec _ _ _ (digits_value 0 g) He)
      by (rewrite lookahead_digits12, Hg; reflexivity).
    cbv iota. f_equal. f_equal. apply series_names_agree.
  - unfold detect_episode_pattern1. unfold t at 1.
    rewrite (find_at_sxe_prefix p _ sc 0 Hp Hsd Hsw). simpl (0 + length p).
    assert (Hm : pat_sxe (sc :: ds ++ ws ++ ec :: d :: r) = Some (ds, Some g)).
    { unfold pat_sxe. change (s "s") with ["s"%char]. change (s "e") with ["e"%char].
      cbn [lit_ci]. rewrite lit_s_is_S, Hs.
      destruct ds as [|a ds']; [simpl in Hl; lia|].
      assert (Ha : is_digit a = true) by (simpl in Hd; apply andb_prop in Hd; tauto).
      change ((a :: ds') ++ ws ++ ec :: d :: r) with (a :: (ds' ++ ws ++ ec :: d :: r)).
      rewrite skip_ws_nonws by (apply (digit_class a Ha)).
      change (a :: (ds' ++ ws ++ ec :: d :: r)) with ((a :: ds') ++ ws ++ ec :: d :: r).
      rewrite Hds. rewrite skip_ws_app by exact Hw. rewrite skip_ws_nonws by exact Hew.
      cbn [lit_ci]. rewrite lit_e_is_E, He.
      rewrite skip_ws_nonws by (apply (digit_class d Hdd)). rewrite Hg. reflexivity. }
    rewrite (find_at_hit _ _ _ _ Hm).
    unfold regex_episode. cbn [Nat.eqb].
    rewrite (parse_u32_digits ds Hd Hl), (parse_u32_digits g Hgd Hgl).
    reflexivity.
Qed.

Lemma manual_pattern1_agree_witness :
  forallb is_ascii (s "Game of Thrones ") = true /\ forallb is_ascii (s "1") = true /\
  no_season_mark (s "Game of Thrones ") = true /\ is_S "S"%char = true /\
  forallb is_digit (s "01") = true /\ 1 <= length (s "01") <= 2 /\
  forallb is_ws [] = true /\ is_E "E"%char = true /\ is_digit "0"%char = true /\
  exists ep,
    detect_episode_manual (s "Game of Thrones " ++ "S"%char :: s "01" ++ [] ++ "E"%char :: "0"%char :: s "1") = Some ep /\
    detect_episode_pattern1 (s "Game of Thrones " ++ "S"%char :: s "01" ++ [] ++ "E"%char :: "0"%char :: s "1") = Some ep.
Proof.
  assert (H0 : forallb is_ascii (s "Game of Thrones ") = true) by (vm_compute; reflexivity).
  assert (H0' : forallb is_ascii (s "1") = true) by (vm_compute; reflexivity).
  assert (H1 : no_season_mark (s "Game of Thrones ") = true) by (vm_compute; reflexivity).
  assert (H2 : is_S "S"%char = true) by reflexivity.
  assert (H3 : forallb is_digit (s "01") = true) by reflexivity.
  assert (H4 : 1 <= length (s "01") <= 2) by (simpl; lia).
  assert (H5 : forallb is_ws [] = true) by reflexivity.
  assert (H6 : is_E "E"%char = true) by reflexivity.
  assert (H7 : is_digit "0"%char = true) by reflexivity.
  do 9 (split; [assumption|]).
  exact (manual_pattern1_agree _ _ _ _ _ _ _ H0 H0' H1 H2 H3 H4 H5 H6 H7).
Defined.

(** * Further properties of the parser, the detectors and the tree *)

(** ** Line endings *)

Definition cr : ascii := "013"%char.

(** The same text with every ['\n'] written as ["\r\n"]. *)
Definition to_crlf (c : str) : str :=
  flat_map (fun ch => if ascii_eqb ch lf then [cr; lf] else [ch]) c.

Lemma to_crlf_cons (a : ascii) (t : str) :
  to_crlf (a :: t) = (if ascii_eqb a lf then [cr; lf] else [a]) ++ to_crlf t.
Proof. reflexivity. Qed.

Lemma to_crlf_length (c : str) : length c <= length (to_crlf c).
Proof.
  induction c as [|a t IH]; [simpl; lia|]. rewrite to_crlf_cons, length_app.
  destruct (ascii_eqb a lf); simpl; lia.
Qed.

Lemma split_line_crlf (c : str) :
  split_line (to_crlf c) =
  (fst (split_line c) ++ (if existsb (fun ch => ascii_eqb ch lf) c then [cr] else []),
   to_crlf (snd (split_line c))).
Proof.
  induction c as [|a t IH]; [reflexivity|].
  rewrite to_crlf_cons. destruct (ascii_eqb a lf) eqn:E.
  - apply ascii_eqb_true in E. subst. reflexivity.
  - cbn [app split_line existsb]. unfold lf in E |- *. rewrite E. cbn [orb].
    rewrite IH. destruct (split_line t) as [l r]. reflexivity.
Qed.

Lemma trim_end_matches_cr_snoc (l : str) :
  trim_end_matches "013"%char (l ++ ["013"%char]) = trim_end_matches "013"%char l.
Proof.
  unfold trim_end_matches. rewrite rev_app_distr. cbn [rev app drop_while].
  rewrite ascii_eqb_refl. reflexivity.
Qed.

Lemma read_line_crlf (c : str) :
  read_line (to_crlf c) =
  match read_line c with Some (l, r) => Some (l, to_crlf r) | None => None end.
Proof.
  destruct c as [|a t]; [reflexivity|].
  assert (Hne : to_crlf (a :: t) <> []).
  { rewrite to_crlf_cons. destruct (ascii_eqb a lf); discriminate. }
  unfold read_line. destruct (to_crlf (a :: t)) as [|b u] eqn:Ec; [contradiction|].
  rewrite <- Ec, split_line_crlf. destruct (split_line (a :: t)) as [l r]. simpl. unfold cr.
  destruct (_ || _); [rewrite trim_end_matches_cr_snoc|rewrite app_nil_r]; reflexivity.
Qed.

Lemma read_metadata_crlf (n : nat) :
  forall x, read_metadata n (to_crlf x) =
  match read_metadata n x with Some (l, r) => Some (l, to_crlf r) | None => None end.
Proof.
  induction n as [|n IH]; intros x; [reflexivity|]. cbn [read_metadata].
  rewrite read_line_crlf. destruct (read_line x) as [[l r]|]; [|reflexivity].
  cbv beta iota zeta. destruct (starts_with _ _); [reflexivity|].
  destruct (_ || _); apply IH.
Qed.

Lemma read_url_crlf (n : nat) :
  forall x, read_url n (to_crlf x) =
  match read_url n x with Some (l, r) => Some (l, to_crlf r) | None => None end.
Proof.
  induction n as [|n IH]; intros x; [reflexivity|]. cbn [read_url].
  rewrite read_line_crlf. destruct (read_line x) as [[l r]|]; [|reflexivity].
  cbv beta iota zeta. destruct (_ && _); [reflexivity|apply IH].
Qed.

Lemma read_entry_crlf (x : str) :
  read_entry (to_crlf x) =
  match read_entry x with Some (m, u, r) => Some (m, u, to_crlf r) | None => None end.
Proof.
  unfold read_entry. rewrite read_metadata_crlf.
  rewrite (read_metadata_fuel (S (length (to_crlf x))) (S (length x)))
    by (pose proof (to_crlf_length x); lia).
  destruct (read_metadata (S (length x)) x) as [[m r]|] eqn:E; [|reflexivity].
  rewrite read_url_crlf.
  rewrite (read_url_fuel (S (length (to_crlf r))) (S (length r)))
    by (pose proof (to_crlf_length r); lia).
  destruct (read_url (S (length r)) r) as [[u r']|]; reflexivity.
Qed.

Lemma parse_entries_crlf (n : nat) :
  forall x, parse_entries n (to_crlf x) = parse_entries n x.
Proof.
  induction n as [|n IH]; intros x; [reflexivity|]. rewrite !parse_entries_S.
  rewrite read_entry_crlf. destruct (read_entry x) as [[[m u] r]|]; [|reflexivity].
  destruct (parse_entry m u); [f_equal|]; apply IH.
Qed.

(** Writing every line ending of a playlist as ["\r\n"] in place of
    ["\n"] does not change the result of [parse]: the same items, or the
    same error. *)
Theorem parse_crlf_invariant (c : str) : parse (to_crlf c) = parse c.
Proof.
  unfold parse, read_header. rewrite read_line_crlf.
  destruct (read_line c) as [[l r]|]; [|reflexivity].
  destruct (starts_with _ _); [|reflexivity].
  rewrite parse_entries_crlf. f_equal. apply parse_entries_fuel; pose proof (to_crlf_length r); lia.
Qed.

(** ** Parsing a generated playlist *)

(** The metadata line [#EXTINF:-1 group-title="g",t] and its attribute
    part. *)
Definition attrs_of (g : str) : str := s "#EXTINF:-1 group-title=" ++ quote :: g ++ [quote].
Definition extinf_line (g t : str) : str := attrs_of g ++ ","%char :: t.

(** An entry [(group, title, url)] written as a metadata line and a URL
    line, and a playlist of such entries after the header line. *)
Definition entry_text (e : str * str * str) : str :=
  let '(g, t, u) := e in extinf_line g t ++ lf :: u ++ [lf].
Definition playlist (es : list (str * str * str)) : str :=
  s "#EXTM3U" ++ lf :: flat_map entry_text es.

(** The entries the playlist writer accepts: no line breaks, no double
    quote in the group, no comma in the title, and a URL that is not blank
    and does not start with [#]. *)
Definition entry_ok (e : str * str * str) : Prop :=
  let '(g, t, u) := e in
  ~ In lf g /\ ~ In quote g /\ ~ In lf t /\ ~ In ","%char t /\
  ~ In lf u /\ is_empty (trim u) = false /\ starts_with (s "#") (trim u) = false.

Lemma drop_while_app_stop (f : ascii -> bool) (x y : str) (z : ascii) :
  f z = false -> drop_while f (x ++ z :: y) = drop_while f x ++ z :: y.
Proof.
  intros Hz. induction x as [|c x IH]; simpl; [rewrite Hz; reflexivity|].
  destruct (f c); [exact IH|reflexivity].
Qed.

Lemma rev_drop_app_stop (f : ascii -> bool) (x y : str) (z : ascii) :
  f z = false ->
  rev (drop_while f (rev (x ++ z :: y))) = x ++ z :: rev (drop_while f (rev y)).
Proof.
  intros Hz. rewrite rev_app_distr. simpl. rewrite <- app_assoc. simpl.
  rewrite drop_while_app_stop by exact Hz. rewrite rev_app_distr. simpl.
  rewrite rev_involutive, <- app_assoc. reflexivity.
Qed.

Lemma starts_with_self (p y : str) : starts_with p (p ++ y) = true.
Proof. induction p as [|a p IH]; simpl; [reflexivity|]. rewrite ascii_eqb_refl. exact IH. Qed.

Lemma rfind_from_last (c : ascii) (x y : str) :
  forall i, ~ In c y -> rfind_from i c (x ++ c :: y) = Some (i + length x).
Proof.
  induction x as [|d x IH]; intros i Hy; simpl.
  - rewrite rfind_from_none by exact Hy. rewrite ascii_eqb_refl, Nat.add_0_r. reflexivity.
  - rewrite IH by exact Hy. f_equal. lia.
Qed.

Lemma find_char_first (c : ascii) (y z : str) :
  forall i, ~ In c y -> find_str_from i [c] (y ++ c :: z) = Some (i + length y).
Proof.
  induction y as [|d y IH]; intros i Hy; simpl.
  - rewrite ascii_eqb_refl, Nat.add_0_r. reflexivity.
  - destruct (ascii_eqb c d) eqn:E.
    + apply ascii_eqb_true in E. subst. simpl in Hy. tauto.
    + simpl. rewrite IH by (simpl in Hy; tauto). f_equal. lia.
Qed.

Lemma extinf_line_trim_end (g t : str) :
  trim_end_matches "013"%char (extinf_line g t) = extinf_line g (trim_end_matches "013"%char t).
Proof. unfold trim_end_matches, extinf_line. apply rev_drop_app_stop. reflexivity. Qed.

Lemma extinf_line_header (g t : str) :
  starts_with (s "#EXTINF") (trim (extinf_line g t)) = true.
Proof.
  unfold trim, trim_end, extinf_line. rewrite rev_drop_app_stop by reflexivity.
  unfold trim_start. change (attrs_of g) with ("#"%char :: (s "EXTINF:-1 group-title=" ++ quote :: g ++ [quote])).
  cbn [app]. rewrite skip_ws_nonws by reflexivity.
  change (s "#EXTINF") with ("#"%char :: s "EXTINF"). cbn [starts_with].
  change (s "EXTINF:-1 group-title=") with (s "EXTINF" ++ s ":-1 group-title=").
  rewrite <- !app_assoc. rewrite starts_with_self. reflexivity.
Qed.

Lemma extinf_line_no_lf (g t : str) : ~ In lf g -> ~ In lf t -> ~ In lf (extinf_line g t).
Proof.
  intros Hg Ht H. unfold extinf_line, attrs_of in H. apply in_app_or in H as [H|H].
  - apply in_app_or in H as [H|H]; [vm_compute in H; intuition discriminate|].
    destruct H as [H|H]; [vm_compute in H; discriminate H|].
    apply in_app_or in H as [H|[H|[]]]; [contradiction|vm_compute in H; discriminate H].
  - destruct H as [H|H]; [vm_compute in H; discriminate H|contradiction].
Qed.

Lemma attribute_group_of (g : str) :
  ~ In quote g -> attribute group_title_key (attrs_of g) = Some g.
Proof.
  intros Hq. unfold attribute.
  assert (F : find_str group_title_key (attrs_of g) = Some 11) by (vm_compute; reflexivity).
  rewrite F. change (11 + length group_title_key) with 24.
  change (attrs_of g) with ((s "#EXTINF:-1 group-title=" ++ [quote]) ++ g ++ [quote]).
  change 24 with (length (s "#EXTINF:-1 group-title=" ++ [quote]) + 0).
  rewrite skipn_length_app. simpl (skipn 0 _).
  unfold find_char, find_str. rewrite find_char_first by exact Hq. rewrite Nat.add_0_l.
  unfold slice. rewrite Nat.add_comm, Nat.add_sub.
  rewrite skipn_length_app. simpl (skipn 0 _). rewrite firstn_length_app. reflexivity.
Qed.

Lemma parse_entry_line (g t u : str) :
  ~ In quote g -> ~ In ","%char t ->
  exists it, parse_entry (trim_end_matches "013"%char (extinf_line g t))
                         (trim_end_matches "013"%char u) = Some it /\
             group it = g /\ title it = trim t /\ url it = trim u.
Proof.
  intros Hq Hc. rewrite extinf_line_trim_end.
  set (t' := trim_end_matches "013"%char t).
  assert (Hc' : ~ In ","%char t') by (intros H; apply Hc; eapply trim_end_matches_in; eauto).
  unfold parse_entry, rfind, extinf_line. rewrite rfind_from_last by exact Hc'.
  rewrite Nat.add_0_l. eexists. split; [reflexivity|]. cbn [group title url].
  rewrite firstn_length_app, attribute_group_of by exact Hq.
  rewrite skipn_length_app. simpl (skipn 1 _).
  unfold t'. rewrite !trim_trim_end_matches_cr. auto.
Qed.

Lemma parse_entries_playlist (es : list (str * str * str)) :
  Forall entry_ok es -> forall n, length (flat_map entry_text es) < n ->
  map (fun it => (group it, title it, url it)) (parse_entries n (flat_map entry_text es)) =
  map (fun '(g, t, u) => (g, trim t, trim u)) es.
Proof.
  induction es as [|[[g t] u] es IH]; intros Hok n Hn.
  - destruct n; reflexivity.
  - inversion Hok as [|? ? He Hok']; subst.
    destruct He as (Hgl & Hgq & Htl & Htc & Hul & Hue & Huh).
    destruct n as [|n]; [simpl in Hn; lia|].
    rewrite parse_entries_S.
    cbn [flat_map entry_text]. rewrite <- app_assoc. cbn [app]. rewrite <- app_assoc. cbn [app].
    set (rest := flat_map entry_text es).
    assert (E : read_entry (extinf_line g t ++ lf :: u ++ lf :: rest) =
                Some (trim_end_matches "013"%char (extinf_line g t),
                      trim_end_matches "013"%char u, rest)).
    { unfold read_entry.
      rewrite read_metadata_extinf by (auto using extinf_line_no_lf, extinf_line_header).
      rewrite read_url_line by assumption. reflexivity. }
    rewrite E.
    destruct (parse_entry_line g t u Hgq Htc) as (it & Hit & Hg & Ht & Hu).
    rewrite Hit. cbn [map]. rewrite Hg, Ht, Hu. f_equal.
    apply IH; [exact Hok'|].
    subst rest. cbn [flat_map entry_text] in Hn. rewrite !length_app in Hn. simpl in Hn.
    rewrite ?length_app in Hn. simpl in Hn. lia.
Qed.

(** Round trip: parsing a playlist written from a list of (group, title,
    url) entries succeeds and gives one item per entry, in order, with the
    entry's group, its trimmed title and its trimmed URL. *)
Theorem parse_playlist_roundtrip (es : list (str * str * str)) :
  Forall entry_ok es ->
  exists items, parse (playlist es) = Ok items /\
    map (fun it => (group it, title it, url it)) items =
    map (fun '(g, t, u) => (g, trim t, trim u)) es.
Proof.
  intros Hok. unfold playlist.
  rewrite parse_header_line by (vm_compute; intuition discriminate).
  change (header_ok (s "#EXTM3U")) with true. cbv iota.
  eexists. split; [reflexivity|]. apply parse_entries_playlist; [exact Hok|lia].
Qed.

Lemma parse_playlist_roundtrip_witness :
  let es := [(s "Movies", s " Heat (1995) ", s "http://x/heat.mkv");
             (s "Kids", s "Up", s " http://x/up.mp4")] in
  Forall entry_ok es /\
  exists items, parse (playlist es) = Ok items /\
    map (fun it => (group it, title it, url it)) items =
    map (fun '(g, t, u) => (g, trim t, trim u)) es.
Proof.
  intros es.
  assert (H : Forall entry_ok es).
  { repeat constructor; vm_compute; try reflexivity; intuition discriminate. }
  split; [exact H|]. exact (parse_playlist_roundtrip es H).
Defined.

(** ** The fields of parsed items *)

Lemma split_line_fst_no_lf (x : str) : ~ In lf (fst (split_line x)).
Proof.
  induction x as [|c x IH]; simpl; [tauto|].
  destruct (ascii_eqb c "010"%char) eqn:E; simpl; [tauto|].
  destruct (split_line x) as [l r]. simpl in *. intros [H|H]; [|tauto].
  subst. unfold lf in E. rewrite ascii_eqb_refl in E. discriminate.
Qed.

Lemma read_line_no_lf (x l r : str) : read_line x = Some (l, r) -> ~ In lf l.
Proof.
  unfold read_line. destruct x as [|c t]; [discriminate|].
  pose proof (split_line_fst_no_lf (c :: t)) as H.
  destruct (split_line (c :: t)) as [a b]. intros E; inversion E; subst.
  intros Hin. apply trim_end_matches_in in Hin. contradiction.
Qed.

Lemma read_metadata_no_lf (n : nat) :
  forall x l r, read_metadata n x = Some (l, r) -> ~ In lf l.
Proof.
  induction n as [|n IH]; intros x l r H; cbn [read_metadata] in H; [discriminate|].
  destruct (read_line x) as [[l' x']|] eqn:E; [|discriminate].
  destruct (starts_with _ _); [inversion H; subst; eapply read_line_no_lf; eauto|].
  destruct (_ || _); eapply IH; eauto.
Qed.

Lemma read_url_props (n : nat) :
  forall x l r, read_url n x = Some (l, r) ->
  ~ In lf l /\ is_empty (trim l) = false /\ starts_with (s "#") (trim l) = false.
Proof.
  induction n as [|n IH]; intros x l r H; cbn [read_url] in H; [discriminate|].
  destruct (read_line x) as [[l' x']|] eqn:E; [|discriminate].
  destruct (negb (is_empty (trim l')) && negb (starts_with (s "#") (trim l'))) eqn:C.
  - inversion H; subst. apply andb_prop in C as [C1 C2]. apply negb_true_iff in C1, C2.
    split; [eapply read_line_no_lf; eauto|auto].
  - eapply IH; eauto.
Qed.

(** Every item [parse_entries] returns is made by [parse_entry] from a
    metadata line and a URL line that [read_entry] accepted. *)
Lemma parse_entries_source (n : nat) :
  forall x it, In it (parse_entries n x) ->
  exists m u, parse_entry m u = Some it /\ ~ In lf m /\ ~ In lf u /\
              is_empty (trim u) = false /\ starts_with (s "#") (trim u) = false.
Proof.
  induction n as [|n IH]; intros x it H; [destruct H|]. rewrite parse_entries_S in H.
  destruct (read_entry x) as [[[m u] r]|] eqn:E; [|destruct H].
  assert (Hmu : ~ In lf m /\ ~ In lf u /\
                is_empty (trim u) = false /\ starts_with (s "#") (trim u) = false).
  { unfold read_entry in E.
    destruct (read_metadata _ x) as [[m' x']|] eqn:E1; [|discriminate].
    destruct (read_url _ x') as [[u' x'']|] eqn:E2; [|discriminate].
    inversion E; subst. split; [eapply read_metadata_no_lf; eauto|].
    eapply read_url_props; eauto. }
  destruct (parse_entry m u) as [it'|] eqn:P.
  - destruct H as [<-|H]; [exists m, u; tauto|eapply IH; eauto].
  - eapply IH; eauto.
Qed.

Lemma parse_ok_source (c : str) (items : list M3UItem) :
  parse c = Ok items -> exists n rest, items = parse_entries n rest.
Proof.
  unfold parse. destruct (read_header c) as [[[|] rest]|e]; try discriminate.
  intros H; inversion H; subst. exists (S (length rest)), rest. reflexivity.
Qed.

Lemma In_firstn' (c : ascii) (k : nat) (l : str) : In c (firstn k l) -> In c l.
Proof. intros H. rewrite <- (firstn_skipn k l). apply in_or_app. auto. Qed.

Lemma In_skipn' (c : ascii) (k : nat) (l : str) : In c (skipn k l) -> In c l.
Proof. intros H. rewrite <- (firstn_skipn k l). apply in_or_app. auto. Qed.

Lemma In_trim (c : ascii) (l : str) : In c (trim l) -> In c l.
Proof.
  unfold trim, trim_start, trim_end. intros H. apply drop_while_in in H.
  apply in_rev in H. apply drop_while_in in H. apply in_rev in H. exact H.
Qed.

Lemma rfind_from_none_not_in (c : ascii) (l : str) :
  forall i, rfind_from i c l = None -> ~ In c l.
Proof.
  induction l as [|d l IH]; intros i H; simpl; [tauto|]. simpl in H.
  destruct (rfind_from (S i) c l) eqn:E; [discriminate|].
  destruct (ascii_eqb c d) eqn:Ec; [discriminate|].
  intros [->|Hin]; [rewrite ascii_eqb_refl in Ec; discriminate|]. eapply IH; eauto.
Qed.

Lemma rfind_from_after (c : ascii) (l : str) :
  forall i j, rfind_from i c l = Some j -> i <= j /\ ~ In c (skipn (S (j - i)) l).
Proof.
  induction l as [|d l IH]; intros i j H; simpl in H; [discriminate|].
  destruct (rfind_from (S i) c l) as [j'|] eqn:E.
  - inversion H; subst. destruct (IH _ _ E) as [Hle Hn]. split; [lia|].
    replace (S (j - i)) with (S (S (j - S i))) by lia. exact Hn.
  - destruct (ascii_eqb c d); [|discriminate]. inversion H; subst.
    split; [lia|]. rewrite Nat.sub_diag. eapply rfind_from_none_not_in; eauto.
Qed.

Lemma find_char_before (c : ascii) (l : str) :
  forall i j, find_str_from i [c] l = Some j -> i <= j /\ ~ In c (firstn (j - i) l).
Proof.
  induction l as [|d l IH]; intros i j H; simpl in H; [discriminate|].
  destruct (ascii_eqb c d) eqn:E; simpl in H.
  - inversion H; subst. rewrite Nat.sub_diag. simpl. split; [lia|tauto].
  - destruct (IH _ _ H) as [Hle Hn]. split; [lia|].
    replace (j - i) with (S (j - S i)) by lia. simpl. intros [->|Hin]; [|contradiction].
    rewrite ascii_eqb_refl in E. discriminate.
Qed.

Lemma attribute_props (key m v : str) :
  attribute key m = Some v -> ~ In quote v /\ (forall ch, In ch v -> In ch m).
Proof.
  unfold attribute. destruct (find_str key m) as [st|]; [|discriminate].
  unfold find_char, find_str.
  destruct (find_str_from 0 [quote] (skipn (st + length key) m)) as [ve|] eqn:E;
    [|discriminate].
  intros H; inversion H; subst. apply find_char_before in E as [_ E].
  rewrite Nat.sub_0_r in E. unfold slice. rewrite Nat.add_comm, Nat.add_sub.
  split; [exact E|]. intros ch Hin. eapply In_skipn'. eapply In_firstn'. exact Hin.
Qed.

Lemma parse_entry_props (m u : str) (it : M3UItem) :
  parse_entry m u = Some it ->
  url it = trim u /\ ~ In ","%char (title it) /\ ~ In quote (group it) /\
  (forall lg, logo it = Some lg -> ~ In quote lg) /\
  (forall ch, In ch (title it) -> In ch m) /\ (forall ch, In ch (group it) -> In ch m) /\
  (forall ch lg, logo it = Some lg -> In ch lg -> In ch m).
Proof.
  unfold parse_entry, rfind. destruct (rfind_from 0 ","%char m) as [pos|] eqn:E;
    [|discriminate].
  intros H; inversion H; subst; clear H. cbn [url title group logo].
  apply rfind_from_after in E as [_ Hc]. rewrite Nat.sub_0_r in Hc.
  split; [reflexivity|]. split.
  { intros Hin. apply In_trim in Hin. rewrite Nat.add_1_r in Hin. contradiction. }
  split.
  { destruct (attribute group_title_key _) eqn:A; [apply attribute_props in A; tauto|simpl; tauto]. }
  split.
  { intros lg A. apply attribute_props in A. tauto. }
  split.
  { intros ch Hin. apply In_trim, In_skipn' in Hin. exact Hin. }
  split.
  { intros ch Hin. destruct (attribute group_title_key _) eqn:A; [|destruct Hin].
    apply attribute_props in A as [_ A]. eapply In_firstn'. apply A. exact Hin. }
  { intros ch lg A Hin. apply attribute_props in A as [_ A]. eapply In_firstn'. apply A. exact Hin. }
Qed.

(** Every item [parse] returns has a URL that is not empty and does not
    start with [#], and a title without a comma; no field of the item holds
    a line break. *)
Theorem parse_items_url_title (c : str) (items : list M3UItem) (it : M3UItem) :
  parse c = Ok items -> In it items ->
  is_empty (url it) = false /\ starts_with (s "#") (url it) = false /\
  ~ In ","%char (title it) /\
  ~ In lf (title it) /\ ~ In lf (url it) /\ ~ In lf (group it) /\
  (forall lg, logo it = Some lg -> ~ In lf lg).
Proof.
  intros Hp Hin. destruct (parse_ok_source _ _ Hp) as (n & rest & ->).
  destruct (parse_entries_source _ _ _ Hin) as (m & u & P & Hm & Hu & Hue & Huh).
  destruct (parse_entry_props _ _ _ P) as (Hurl & Hc & _ & _ & Ht & Hg & Hl).
  rewrite Hurl. repeat split; auto; repeat intro;
    first [ apply Hm, Ht; assumption | apply Hu, In_trim; assumption
          | apply Hm, Hg; assumption | apply Hm; eapply Hl; eauto ].
Qed.

(** Every item [parse] returns has a group and a logo without a double
    quote: an attribute value stops at the first quote after the key. *)
Theorem parse_items_attributes (c : str) (items : list M3UItem) (it : M3UItem) :
  parse c = Ok items -> In it items ->
  ~ In quote (group it) /\ (forall lg, logo it = Some lg -> ~ In quote lg).
Proof.
  intros Hp Hin. destruct (parse_ok_source _ _ Hp) as (n & rest & ->).
  destruct (parse_entries_source _ _ _ Hin) as (m & u & P & _).
  destruct (parse_entry_props _ _ _ P) as (_ & _ & Hg & Hl & _). auto.
Qed.

Definition sample_playlist : str :=
  ln "#EXTM3U" ++
  (s "#EXTINF:-1 tvg-logo=" ++ [quote] ++ s "l.png" ++ [quote] ++ s " group-title=" ++
   [quote] ++ s "News" ++ [quote] ++ s ",Daily, Late") ++ [lf] ++
  ln "http://x/news.ts".

Definition news_items : list M3UItem :=
  match parse sample_playlist with Ok l => l | Err _ => [] end.

Definition news_item : M3UItem := hd (sample_item "A" "Action" Movie) news_items.

Lemma parse_items_url_title_witness :
  parse sample_playlist = Ok news_items /\ In news_item news_items /\
  (is_empty (url news_item) = false /\ starts_with (s "#") (url news_item) = false /\
   ~ In ","%char (title news_item) /\
   ~ In lf (title news_item) /\ ~ In lf (url news_item) /\ ~ In lf (group news_item) /\
   (forall lg, logo news_item = Some lg -> ~ In lf lg)).
Proof.
  assert (H1 : parse sample_playlist = Ok news_items) by (vm_compute; reflexivity).
  assert (H2 : In news_item news_items) by (vm_compute; left; reflexivity).
  split; [exact H1|]. split; [exact H2|].
  exact (parse_items_url_title _ _ _ H1 H2).
Defined.

Lemma parse_items_attributes_witness :
  parse sample_playlist = Ok news_items /\ In news_item news_items /\
  (~ In quote (group news_item) /\ (forall lg, logo news_item = Some lg -> ~ In quote lg)).
Proof.
  assert (H1 : parse sample_playlist = Ok news_items) by (vm_compute; reflexivity).
  assert (H2 : In news_item news_items) by (vm_compute; left; reflexivity).
  split; [exact H1|]. split; [exact H2|].
  exact (parse_items_attributes _ _ _ H1 H2).
Defined.

(** ** The year detector *)

Lemma find_at_none_iff {A : Type} (m : str -> option A) (l : str) :
  forall i, find_at m i l = None <-> (forall k, m (skipn k l) = None).
Proof.
  induction l as [|c t IH]; intros i; simpl.
  - split.
    + intros H k. destruct k; simpl; destruct (m []); congruence.
    + intros H. specialize (H 0). simpl in H. rewrite H. reflexivity.
  - split.
    + intros H k. destruct (m (c :: t)) eqn:E; [discriminate|].
      destruct k as [|k]; [exact E|]. simpl. apply (proj1 (IH (S i)) H).
    + intros H. pose proof (H 0) as H0. simpl in H0. rewrite H0.
      apply (IH (S i)). intros k. exact (H (S k)).
Qed.

(** For an ASCII title, [detect_year] finds nothing exactly when no
    position of the title starts a [(19|20)\d{2}] match: once the pattern
    matches, the year always parses.  (The regex's [\d] is a Unicode class:
    on a non-ASCII digit such as U+0663 the match exists but does not parse
    as a [u32], which the byte model does not represent.) *)
Theorem detect_year_none_iff (t : str) :
  forallb is_ascii t = true ->
  detect_year t = None <-> (forall k, year_at (skipn k t) = None).
Proof.
  intros _. rewrite <- (find_at_none_iff year_at t 0). unfold detect_year.
  destruct (find_at year_at 0 t) as [[st ys]|] eqn:E; [|tauto].
  destruct (find_at_suffix _ _ _ _ _ E) as (pre & l' & _ & _ & Hm).
  rewrite (parse_u32_year _ _ Hm). split; discriminate.
Qed.

(** No two whitespace characters next to each other. *)
Fixpoint no_ws_pair (l : str) : bool :=
  match l with
  | x :: ((y :: _) as t) => negb (is_ws x && is_ws y) && no_ws_pair t
  | _ => true
  end.

Definition word_ok (w : str) : Prop := w <> [] /\ forallb (fun c => negb (is_ws c)) w = true.

Lemma split_ws_aux_words (l : str) :
  forall cur, forallb (fun c => negb (is_ws c)) cur = true ->
  Forall word_ok (split_ws_aux cur l).
Proof.
  assert (Rv : forall cur, forallb (fun c => negb (is_ws c)) cur = true -> cur <> [] ->
               word_ok (rev cur)).
  { intros cur H Hn. split; [intros E; apply Hn; rewrite <- (rev_involutive cur), E; reflexivity|].
    rewrite forallb_rev'. exact H. }
  induction l as [|c t IH]; intros cur Hc; simpl.
  - destruct cur as [|a cur']; [constructor|]. constructor; [apply Rv; [exact Hc|discriminate]|constructor].
  - destruct (is_ws c) eqn:E.
    + destruct cur as [|a cur']; [apply IH; reflexivity|].
      constructor; [apply Rv; [exact Hc|discriminate]|apply IH; reflexivity].
    + apply IH. simpl. rewrite E. exact Hc.
Qed.

Lemma no_ws_pair_join_step (w j : str) :
  word_ok w -> is_ws (hd "x"%char j) = false -> j <> [] -> no_ws_pair j = true ->
  no_ws_pair (w ++ " "%char :: j) = true.
Proof.
  intros [Hn Hw] Hh Hj Hp. induction w as [|x w IH]; [contradiction|].
  simpl in Hw. apply andb_prop in Hw as [Hx Hw]. apply negb_true_iff in Hx.
  destruct w as [|y w].
  - destruct j as [|z j]; [contradiction|]. simpl in Hh.
    change (no_ws_pair ([x] ++ " "%char :: z :: j)) with
      (negb (is_ws x && is_ws " "%char) && (negb (is_ws " "%char && is_ws z) && no_ws_pair (z :: j))).
    rewrite Hx, Hh, Hp. reflexivity.
  - change ((x :: y :: w) ++ " "%char :: j) with (x :: ((y :: w) ++ " "%char :: j)).
    cbn [no_ws_pair app]. rewrite Hx. simpl (negb (false && _)).
    apply IH; [discriminate|exact Hw].
Qed.

Lemma last_app' {A : Type} (l l' : list A) (d : A) :
  l' <> [] -> last (l ++ l') d = last l' d.
Proof.
  intros Hn. induction l as [|a l IH]; [reflexivity|]. simpl.
  destruct (l ++ l') eqn:E; [destruct l; [contradiction|discriminate]|]. exact IH.
Qed.

Lemma join_props (ws : list str) :
  Forall word_ok ws ->
  let c := join (s " ") ws in
  (forall ch, In ch c -> is_ws ch = true -> ch = " "%char) /\ no_ws_pair c = true /\
  is_ws (hd "x"%char c) = false /\ is_ws (last c "x"%char) = false /\ (ws <> [] -> c <> []).
Proof.
  induction ws as [|w ws IH]; intros Hok; [simpl; repeat split; auto; contradiction|].
  inversion Hok as [|? ? Hw Hws]; subst. specialize (IH Hws). cbv zeta in IH |- *.
  destruct IH as (IH1 & IH2 & IH3 & IH4 & IH5).
  destruct Hw as [Hwn Hww].
  assert (Wch : forall ch, In ch w -> is_ws ch = false).
  { intros ch Hin. apply (proj1 (forallb_forall _ _) Hww) in Hin. apply negb_true_iff, Hin. }
  assert (Whd : is_ws (hd "x"%char w) = false)
    by (destruct w as [|a w']; [contradiction|apply Wch; left; reflexivity]).
  destruct ws as [|w' ws'].
  - simpl. repeat split.
    + intros ch Hin Hws'. rewrite (Wch ch Hin) in Hws'. discriminate.
    + clear -Wch. induction w as [|a w IH]; [reflexivity|]. destruct w as [|b w]; [reflexivity|].
      change (no_ws_pair (a :: b :: w)) with (negb (is_ws a && is_ws b) && no_ws_pair (b :: w)).
      rewrite (Wch a (or_introl eq_refl)). simpl. apply IH. intros ch H. apply Wch. right. exact H.
    + exact Whd.
    + destruct w as [|a w'] using rev_ind; [contradiction|]. rewrite last_last.
      apply Wch. apply in_or_app. right. left. reflexivity.
    + intros _. exact Hwn.
  - change (join (s " ") (w :: w' :: ws')) with (w ++ " "%char :: join (s " ") (w' :: ws')).
    set (j := join (s " ") (w' :: ws')) in *.
    assert (Hjn : j <> []) by (apply IH5; discriminate).
    repeat split.
    + intros ch Hin Hws'. apply in_app_or in Hin as [Hin|[<-|Hin]].
      * rewrite (Wch ch Hin) in Hws'. discriminate.
      * reflexivity.
      * apply IH1; assumption.
    + apply no_ws_pair_join_step; [split; assumption|exact IH3|exact Hjn|exact IH2].
    + destruct w as [|a w'']; [contradiction|exact Whd].
    + rewrite last_app' by discriminate. destruct j as [|z j']; [contradiction|].
      simpl. simpl in IH4. exact IH4.
    + intros _ E. destruct w; [contradiction|discriminate E].
Qed.


(** When [detect_year] succeeds, the cleaned title is single-spaced: its
    only whitespace characters are plain spaces, no two of them are
    adjacent, and it neither starts nor ends with whitespace (for the empty
    title, [hd] and [last] return the non-whitespace default ["x"]). *)
Theorem detect_year_cleaned_single_spaced (t : str) (yi : YearInfo) :
  detect_year t = Some yi ->
  let c := year_cleaned_title yi in
  (forall ch, In ch c -> is_ws ch = true -> ch = " "%char) /\ no_ws_pair c = true /\
  is_ws (hd "x"%char c) = false /\ is_ws (last c "x"%char) = false.
Proof.
  unfold detect_year.
  destruct (find_at year_at 0 t) as [[st ys]|]; [|discriminate].
  destruct (parse_u32 ys); [|discriminate].
  intros H. injection H as <-. cbn [year_cleaned_title].
  cbv zeta. match goal with |- context [split_whitespace (trim ?Y)] => generalize (trim Y) end. intros X.
  destruct (join_props (split_whitespace X) (split_ws_aux_words X [] eq_refl)) as (A & B & C & D & _).
  repeat split; assumption.
Qed.

Definition spaced_title : str := s "Big  Movie (2001)  Extended ".

Lemma detect_year_cleaned_single_spaced_witness :
  detect_year spaced_title =
    Some {| year := 2001; year_cleaned_title := s "Big Movie Extended" |} /\
  no_ws_pair (s "Big Movie Extended") = true.
Proof.
  assert (H : detect_year spaced_title =
    Some {| year := 2001; year_cleaned_title := s "Big Movie Extended" |}) by (vm_compute; reflexivity).
  split; [exact H|].
  exact (proj1 (proj2 (detect_year_cleaned_single_spaced _ _ H))).
Defined.

(** ** The episode detector *)

Definition bounded (o : option nat) : Prop := forall v, o = Some v -> v <= 99.

(** A series-name end is [0] or the length of a prefix of the title that
    ends in a non-whitespace character. *)
Definition sne_ok (chars : str) (n : nat) : Prop :=
  n = 0 \/ (n <= length chars /\ is_ws (nth (n - 1) chars nul) = false).

Definition small (g : str) : Prop := forallb is_digit g = true /\ 1 <= length g <= 2.

Lemma digits_value_small (g : str) : small g -> digits_value 0 g <= 99.
Proof.
  intros [Hd Hl]. destruct g as [|a [|b [|c g]]]; simpl in Hl; try lia; simpl in Hd.
  - rewrite andb_true_r in Hd. apply is_digit_bounds in Hd. simpl. unfold digit_val. lia.
  - rewrite andb_true_r in Hd. apply andb_prop in Hd as [Ha Hb].
    apply is_digit_bounds in Ha, Hb. simpl. unfold digit_val. lia.
Qed.

Lemma digits12_small (l g r : str) : digits12 l = Some (g, r) -> small g.
Proof.
  unfold digits12, small. destruct l as [|a [|b t]]; [discriminate| |].
  - destruct (is_digit a) eqn:Ha; [|discriminate]. intros H; injection H as <- <-.
    simpl. rewrite Ha. auto.
  - destruct (is_digit a) eqn:Ha; [|discriminate]. destruct (is_digit b) eqn:Hb;
      intros H; injection H as <- <-; simpl; rewrite ?Ha, ?Hb; auto.
Qed.

Lemma lookahead_bounded (l : str) : bounded (lookahead l).
Proof.
  intros v. rewrite lookahead_digits12. destruct (digits12 l) as [[g r]|] eqn:E; [|discriminate].
  intros H; injection H as <-. exact (digits_value_small _ (digits12_small _ _ _ E)).
Qed.

Lemma back_ws_ok (chars : str) (n : nat) : n <= length chars -> sne_ok chars (back_ws chars n).
Proof.
  induction n as [|m IH]; intros Hn; [left; reflexivity|]. simpl.
  destruct (is_ws (nth m chars nul)) eqn:E; [apply IH; lia|].
  right. split; [exact Hn|]. rewrite Nat.sub_1_r. exact E.
Qed.

Lemma manual_scan_inv (chars : str) (rest : str) :
  forall i so eo n, i + length rest = length chars -> bounded so -> bounded eo -> sne_ok chars n ->
  match manual_scan chars i rest so eo n with
  | (so', eo', n') => bounded so' /\ bounded eo' /\ sne_ok chars n'
  end.
Proof.
  induction rest as [|ch after IH]; intros i so eo n Hi Hs He Hn; [cbn [manual_scan]; auto|].
  cbn [manual_scan]. simpl in Hi.
  assert (Hstep : exists so' n',
    (if is_none so && is_S ch then
       match lookahead after with Some sv => (Some sv, back_ws chars i) | None => (so, n) end
     else (so, n)) = (so', n') /\ bounded so' /\ sne_ok chars n').
  { destruct (is_none so && is_S ch); [destruct (lookahead after) as [sv|] eqn:L|].
    - exists (Some sv), (back_ws chars i). split; [reflexivity|]. split.
      + rewrite <- L. apply lookahead_bounded.
      + apply back_ws_ok. lia.
    - exists so, n. auto.
    - exists so, n. auto. }
  destruct Hstep as (so' & n' & -> & Hs' & Hn').
  destruct (is_some so' && is_none eo && is_E ch); [destruct (lookahead after) as [e|] eqn:L|].
  - split; [exact Hs'|]. split; [|exact Hn']. rewrite <- L. apply lookahead_bounded.
  - apply IH; auto. lia.
  - apply IH; auto. lia.
Qed.

Lemma trim_nonempty (l : str) (c : ascii) : In c l -> is_ws c = false -> trim l <> [].
Proof.
  intros Hin Hc Ht. apply trim_nil in Ht. unfold trim_end in Ht.
  assert (H : drop_while is_ws (rev l) = []).
  { rewrite <- (rev_involutive (drop_while _ _)), Ht. reflexivity. }
  apply drop_while_nil in H. rewrite forallb_rev' in H.
  rewrite (proj1 (forallb_forall _ _) H c Hin) in Hc. discriminate.
Qed.

Lemma sne_ok_name (chars : str) (n : nat) : sne_ok chars n -> 0 < n -> trim (firstn n chars) <> [].
Proof.
  intros [->|[Hl Hw]] Hp; [lia|].
  apply (trim_nonempty _ (nth (n - 1) chars nul)); [|exact Hw].
  replace (nth (n - 1) chars nul) with (nth (n - 1) (firstn n chars) nul)
    by (rewrite nth_firstn, (proj2 (Nat.ltb_lt _ _)) by lia; reflexivity).
  apply nth_In. rewrite firstn_length_le by lia. lia.
Qed.

Lemma detect_episode_manual_props (t : str) (ep : Episode) :
  detect_episode_manual t = Some ep -> season ep <= 99 /\ episode ep <= 99 /\ series_name ep <> [].
Proof.
  unfold detect_episode_manual.
  pose proof (manual_scan_inv t t 0 None None 0 eq_refl
                (fun v H => ltac:(discriminate)) (fun v H => ltac:(discriminate)) (or_introl eq_refl)) as Inv.
  destruct t as [|c t'] eqn:Et; [simpl; discriminate|]. rewrite <- Et in *.
  destruct (manual_scan t 0 t None None 0) as [[[sv|] [e|]] n]; try discriminate.
  destruct Inv as (Hs & He & Hn). intros H; injection H as <-. cbn [season episode series_name].
  split; [apply Hs; reflexivity|]. split; [apply He; reflexivity|].
  destruct (0 <? n) eqn:E.
  - apply Nat.ltb_lt in E. exact (sne_ok_name _ _ Hn E).
  - rewrite Et. discriminate.
Qed.

Definition caps_small (c : captures) : Prop :=
  small (fst c) /\ forall g, snd c = Some g -> small g.

Ltac split_matches H :=
  repeat match type of H with
  | context [match ?x with Some _ => _ | None => _ end] => let E := fresh "E" in destruct x eqn:E
  | context [match ?x with (_, _) => _ end] => destruct x
  end.

Ltac caps_done H :=
  injection H as <-; split; cbn [fst snd];
  [eapply digits12_small; eassumption
  |intros ? Hg; injection Hg as <-; eapply digits12_small; eassumption].

Lemma pat_ep_tail_small (l : str) (c : captures) : pat_ep_tail l = Some c -> caps_small c.
Proof.
  unfold pat_ep_tail. intros H. split_matches H; [|discriminate].
  injection H as <-. split; cbn [fst snd]; [eapply digits12_small; eassumption|discriminate].
Qed.

Lemma PATTERNS_small :
  Forall (fun p => forall l c, p l = Some c -> caps_small c) PATTERNS.
Proof.
  unfold PATTERNS.
  apply Forall_cons; [|apply Forall_cons; [|apply Forall_cons; [|apply Forall_cons; [|apply Forall_nil]]]];
    intros l c H.
  - unfold pat_sxe in H. split_matches H; try discriminate. caps_done H.
  - unfold pat_nxn in H. split_matches H; try discriminate. caps_done H.
  - unfold pat_season_episode in H. split_matches H; try discriminate. caps_done H.
  - unfold pat_ep in H. destruct (lit_ci (s "ep") l) as [l1|]; [|discriminate].
    destruct (lit_ci (s "isode") l1) as [l2|]; [destruct (pat_ep_tail l2) as [c2|] eqn:E2|].
    + injection H as <-. eapply pat_ep_tail_small; eassumption.
    + eapply pat_ep_tail_small; eassumption.
    + eapply pat_ep_tail_small; eassumption.
Qed.

Lemma regex_episode_props (title : str) (idx st : nat) (caps : captures) (ep : Episode) :
  caps_small caps -> title <> [] -> regex_episode title idx st caps = Some ep ->
  season ep <= 99 /\ episode ep <= 99 /\ series_name ep <> [].
Proof.
  destruct caps as [g1 g2]. intros [[H1d H1l] H2] Ht. cbn [fst snd] in H2.
  assert (Hname : forall x : str, (if is_empty x then title else x) <> []).
  { intros x. destruct x; [exact Ht|discriminate]. }
  unfold regex_episode. rewrite (parse_u32_digits g1 H1d H1l).
  assert (V1 := digits_value_small g1 (conj H1d H1l)).
  destruct (idx =? 3).
  - intros H; injection H as <-. cbn [season episode series_name]. split; [lia|]. split; [exact V1|apply Hname].
  - destruct g2 as [g2|]; [|discriminate].
    destruct (H2 g2 eq_refl) as [H2d H2l].
    rewrite (parse_u32_digits g2 H2d H2l).
    intros H; injection H as <-. cbn [season episode series_name].
    split; [exact V1|]. split; [exact (digits_value_small g2 (conj H2d H2l))|apply Hname].
Qed.

Lemma regex_loop_props (title : str) (pats : list (str -> option captures)) :
  forall idx ep, Forall (fun p => forall l c, p l = Some c -> caps_small c) pats ->
  title <> [] -> regex_loop title idx pats = Some ep ->
  season ep <= 99 /\ episode ep <= 99 /\ series_name ep <> [].
Proof.
  induction pats as [|p ps IH]; intros idx ep Hp Ht; [discriminate|].
  inversion Hp as [|? ? Hp1 Hps]; subst. cbn [regex_loop].
  destruct (find_at p 0 title) as [[st caps]|] eqn:E.
  - destruct (find_at_suffix _ _ _ _ _ E) as (pre & l' & _ & _ & Hm).
    apply regex_episode_props; [exact (Hp1 _ _ Hm)|exact Ht].
  - apply IH; assumption.
Qed.

Lemma detect_episode_props (t : str) (ep : Episode) :
  detect_episode t = Some ep -> season ep <= 99 /\ episode ep <= 99 /\ series_name ep <> [].
Proof.
  unfold detect_episode. destruct (detect_episode_manual t) as [e|] eqn:Em.
  - intros H; injection H as <-. exact (detect_episode_manual_props _ _ Em).
  - destruct t as [|c t']; [vm_compute; discriminate|].
    apply regex_loop_props; [exact PATTERNS_small|discriminate].
Qed.

(** Whichever strategy finds it, an episode detected in a title has a season
    and an episode number of at most 99 (both come from one or two digits)
    and a non-empty series name. *)
Theorem detect_episode_bounds (t : str) (ep : Episode) :
  detect_episode t = Some ep -> season ep <= 99 /\ episode ep <= 99 /\ series_name ep <> [].
Proof. apply detect_episode_props. Qed.

Definition episode_title : str := s "The Show 2x07".

Lemma detect_episode_bounds_witness :
  detect_episode episode_title = Some {| series_name := s "The Show"; season := 2; episode := 7 |} /\
  series_name {| series_name := s "The Show"; season := 2; episode := 7 |} <> [].
Proof.
  assert (H : detect_episode episode_title =
              Some {| series_name := s "The Show"; season := 2; episode := 7 |}) by (vm_compute; reflexivity).
  split; [exact H|].
  exact (proj2 (proj2 (detect_episode_bounds _ _ H))).
Defined.

(** ** The nodes built by [CategoryTree::build] *)

Lemma str_eqb_true (a b : str) : str_eqb a b = true <-> a = b.
Proof.
  revert b; induction a as [|x a IH]; intros [|y b]; simpl;
    try (split; [discriminate|congruence]); [split; reflexivity|].
  rewrite andb_true_iff, IH. unfold ascii_eqb. rewrite Ascii.eqb_eq.
  split; [intros [-> ->]; reflexivity|intros H; injection H as -> ->; auto].
Qed.

Lemma category_eqb_true (a b : Category) : category_eqb a b = true <-> a = b.
Proof. destruct a, b; simpl; split; congruence. Qed.

(** [map.get(k).unwrap_or_default()] on a group map. *)
Fixpoint gm_get (m : group_map) (k : str) : list M3UItem :=
  match m with
  | [] => []
  | (k', v) :: m' => if str_eqb k' k then v else gm_get m' k
  end.

(** The pushes that [build_maps] makes into the map of one category. *)
Fixpoint push_all (cat : Category) (its : list M3UItem) (m : group_map) : group_map :=
  match its with
  | [] => m
  | it :: r =>
      push_all cat r
        (if category_eqb (category (item_category it)) cat then entry_push (item_group it) it m else m)
  end.

Definition sel (cat : Category) (ms : group_map * group_map * group_map) : group_map :=
  let '(mv, sr, lv) := ms in
  match cat with Movie => mv | Series => sr | LiveStream => lv end.

(** The nodes of one category of a tree. *)
Definition cat_nodes (t : CategoryTree) (cat : Category) : list CategoryNode :=
  match cat with Movie => movies t | Series => series t | LiveStream => live_streams t end.

(** The items that belong in the node [g] of category [cat]. *)
Definition in_node (cat : Category) (g : str) (it : M3UItem) : bool :=
  str_eqb (item_group it) g && category_eqb (category (item_category it)) cat.

Lemma build_maps_sel (cat : Category) (its : list M3UItem) :
  forall mv sr lv, sel cat (build_maps its mv sr lv) = push_all cat its (sel cat (mv, sr, lv)).
Proof.
  induction its as [|it r IH]; intros mv sr lv; [reflexivity|]. cbn [build_maps push_all].
  destruct (category (item_category it)); rewrite IH; destruct cat; reflexivity.
Qed.

Lemma cat_nodes_build (ii : group_map -> group_map) (its : list M3UItem) (cat : Category) :
  cat_nodes (build ii its) cat = to_nodes (ii (push_all cat its [])).
Proof.
  replace (push_all cat its []) with (sel cat (build_maps its [] [] []))
    by (rewrite build_maps_sel; destruct cat; reflexivity).
  unfold build. destruct (build_maps its [] [] []) as [[mv sr] lv]. destruct cat; reflexivity.
Qed.

Lemma entry_push_get (g : str) (it : M3UItem) (m : group_map) (k : str) :
  gm_get (entry_push g it m) k = gm_get m k ++ (if str_eqb g k then [it] else []).
Proof.
  induction m as [|[k' v] m IH]; simpl.
  - destruct (str_eqb g k); reflexivity.
  - destruct (str_eqb k' g) eqn:E.
    + apply str_eqb_true in E. subst k'. simpl.
      destruct (str_eqb g k); [reflexivity|rewrite app_nil_r; reflexivity].
    + simpl. rewrite IH. destruct (str_eqb k' k) eqn:E'; [|reflexivity].
      apply str_eqb_true in E'. subst k'. destruct (str_eqb g k) eqn:E2; [|rewrite app_nil_r; reflexivity].
      apply str_eqb_true in E2. subst. rewrite (proj2 (str_eqb_true k k) eq_refl) in E. discriminate.
Qed.

Lemma push_all_get (cat : Category) (its : list M3UItem) :
  forall m k, gm_get (push_all cat its m) k = gm_get m k ++ filter (in_node cat k) its.
Proof.
  induction its as [|it r IH]; intros m k; simpl; [rewrite app_nil_r; reflexivity|].
  rewrite IH. unfold in_node at 2.
  destruct (category_eqb (category (item_category it)) cat).
  - rewrite entry_push_get, andb_true_r, <- app_assoc.
    destruct (str_eqb (item_group it) k); reflexivity.
  - rewrite andb_false_r. reflexivity.
Qed.

Lemma entry_push_keys (g : str) (it : M3UItem) (m : group_map) (k : str) :
  In k (map fst (entry_push g it m)) <-> In k (map fst m) \/ k = g.
Proof.
  induction m as [|[k' v] m IH]; simpl; [intuition|].
  destruct (str_eqb k' g) eqn:E; simpl.
  - apply str_eqb_true in E. subst. intuition.
  - rewrite IH. intuition.
Qed.

Lemma entry_push_nodup (g : str) (it : M3UItem) (m : group_map) :
  NoDup (map fst m) -> NoDup (map fst (entry_push g it m)).
Proof.
  induction m as [|[k' v] m IH]; simpl; intros Hn; [constructor; [intros []|constructor]|].
  inversion Hn as [|? ? Hk Hm]; subst.
  destruct (str_eqb k' g) eqn:E; simpl.
  - exact Hn.
  - constructor; [|apply IH, Hm]. rewrite entry_push_keys. intros [H|H]; [contradiction|].
    subst. rewrite (proj2 (str_eqb_true g g) eq_refl) in E. discriminate.
Qed.

Lemma entry_push_nonempty (g : str) (it : M3UItem) (m : group_map) :
  Forall (fun kv => snd kv <> []) m -> Forall (fun kv => snd kv <> []) (entry_push g it m).
Proof.
  induction m as [|[k' v] m IH]; simpl; intros Hf.
  - constructor; [discriminate|constructor].
  - inversion Hf as [|? ? Hv Hm]; subst. destruct (str_eqb k' g).
    + constructor; [simpl; destruct v; discriminate|exact Hm].
    + constructor; [exact Hv|apply IH, Hm].
Qed.

Lemma push_all_keys (cat : Category) (its : list M3UItem) :
  forall m k, In k (map fst (push_all cat its m)) <->
  In k (map fst m) \/ exists it, In it its /\ item_group it = k /\ category (item_category it) = cat.
Proof.
  induction its as [|it r IH]; intros m k; simpl.
  - split; [tauto|intros [H|(it & [] & _)]; exact H].
  - rewrite IH. destruct (category_eqb (category (item_category it)) cat) eqn:E.
    + rewrite entry_push_keys. apply category_eqb_true in E. split.
      * intros [[H|H]|(x & Hx & Hg & Hc)]; [tauto|right; exists it; auto|right; exists x; auto].
      * intros [H|(x & [Hx|Hx] & Hg & Hc)]; [tauto|subst; left; right; reflexivity|right; exists x; auto].
    + split.
      * intros [H|(x & Hx & Hg & Hc)]; [tauto|right; exists x; auto].
      * intros [H|(x & [Hx|Hx] & Hg & Hc)]; [tauto| |right; exists x; auto].
        subst. rewrite (proj2 (category_eqb_true _ _) eq_refl) in E. discriminate.
Qed.

Lemma push_all_nodup (cat : Category) (its : list M3UItem) :
  forall m, NoDup (map fst m) -> NoDup (map fst (push_all cat its m)).
Proof.
  induction its as [|it r IH]; intros m Hm; simpl; [exact Hm|].
  apply IH. destruct (category_eqb _ _); [apply entry_push_nodup|]; exact Hm.
Qed.

Lemma push_all_nonempty (cat : Category) (its : list M3UItem) :
  forall m, Forall (fun kv => snd kv <> []) m -> Forall (fun kv => snd kv <> []) (push_all cat its m).
Proof.
  induction its as [|it r IH]; intros m Hm; simpl; [exact Hm|].
  apply IH. destruct (category_eqb _ _); [apply entry_push_nonempty|]; exact Hm.
Qed.

Lemma gm_get_in (m : group_map) (k : str) (v : list M3UItem) :
  NoDup (map fst m) -> In (k, v) m -> gm_get m k = v.
Proof.
  induction m as [|[k' v'] m IH]; simpl; intros Hn Hin; [contradiction|].
  inversion Hn as [|? ? Hk Hm]; subst.
  destruct Hin as [E|Hin].
  - injection E as -> ->. rewrite (proj2 (str_eqb_true k k) eq_refl). reflexivity.
  - destruct (str_eqb k' k) eqn:E; [|apply IH; assumption].
    apply str_eqb_true in E. subst. exfalso. apply Hk. apply (in_map fst _ _ Hin).
Qed.

Lemma in_to_nodes (m : group_map) (c : CategoryNode) :
  In c (to_nodes m) -> In (name c, items c) m.
Proof.
  induction m as [|[k v] m IH]; simpl; [tauto|].
  intros [<-|H]; [left; reflexivity|right; apply IH, H].
Qed.

Lemma to_nodes_names (m : group_map) : map name (to_nodes m) = map fst m.
Proof. induction m as [|[k v] m IH]; simpl; congruence. Qed.

Section BuildNodes.
Variable into_iter : group_map -> group_map.
Hypothesis into_iter_perm : forall m, Permutation (into_iter m) m.

Lemma build_node_contents (its : list M3UItem) (cat : Category) (c : CategoryNode) :
  In c (cat_nodes (build into_iter its) cat) ->
  items c <> [] /\ items c = filter (in_node cat (name c)) its.
Proof.
  rewrite cat_nodes_build. intros H. apply in_to_nodes in H.
  apply (Permutation_in _ (into_iter_perm _)) in H.
  split.
  - exact (proj1 (Forall_forall _ _) (push_all_nonempty cat its [] (Forall_nil _)) _ H).
  - rewrite <- (gm_get_in _ _ _ (push_all_nodup cat its [] (NoDup_nil _)) H).
    rewrite push_all_get. reflexivity.
Qed.

Lemma build_node_names (its : list M3UItem) (cat : Category) :
  NoDup (map name (cat_nodes (build into_iter its) cat)) /\
  (forall g, In g (map name (cat_nodes (build into_iter its) cat)) <->
             exists it, In it its /\ item_group it = g /\ category (item_category it) = cat).
Proof.
  rewrite cat_nodes_build, to_nodes_names.
  pose proof (Permutation_map fst (into_iter_perm (push_all cat its []))) as P.
  split.
  - apply (Permutation_NoDup (Permutation_sym P)), push_all_nodup, NoDup_nil.
  - intros g. split.
    + intros H. apply (Permutation_in _ P) in H. apply push_all_keys in H as [[]|H]. exact H.
    + intros H. apply (Permutation_in _ (Permutation_sym P)). apply push_all_keys. right. exact H.
Qed.

(** Each node of a built tree is non-empty and holds exactly the input items
    of its group (an empty group read as [Uncategorized]) and of its
    category, in input order; this holds for every iteration order of the
    hash maps. *)
Theorem build_node_items (its : list M3UItem) (cat : Category) (c : CategoryNode) :
  In c (cat_nodes (build into_iter its) cat) ->
  items c <> [] /\ items c = filter (in_node cat (name c)) its.
Proof. apply build_node_contents. Qed.

(** Within each category of a built tree the node names are distinct, and
    they are exactly the effective groups ([item_group]: the group, or
    [Uncategorized] when the group is empty) of the input items of that
    category. *)
Theorem build_node_names_exact (its : list M3UItem) (cat : Category) :
  NoDup (map name (cat_nodes (build into_iter its) cat)) /\
  (forall g, In g (map name (cat_nodes (build into_iter its) cat)) <->
             exists it, In it its /\ item_group it = g /\ category (item_category it) = cat).
Proof. apply build_node_names. Qed.

(** On a built tree, [find_category g] finds nothing exactly when no input
    item has effective group [g] ([item_group]: the group, or
    [Uncategorized] when the group is empty); a node it finds is named [g]
    and is the non-empty list, in input order, of the input items of
    effective group [g] and of one category. *)
Theorem find_category_build (its : list M3UItem) (g : str) :
  (find_category (build into_iter its) g = None <-> (forall it, In it its -> item_group it <> g)) /\
  (forall c, find_category (build into_iter its) g = Some c ->
     name c = g /\ exists cat, items c <> [] /\ items c = filter (in_node cat g) its).
Proof.
  set (t := build into_iter its).
  assert (Some_case : forall c, find_category t g = Some c ->
     name c = g /\ exists cat, items c <> [] /\ items c = filter (in_node cat g) its).
  { intros c H. apply find_some in H as [Hin Hn]. apply str_eqb_true in Hn.
    split; [exact Hn|].
    assert (Hc : exists cat, In c (cat_nodes t cat)).
    { apply in_app_or in Hin as [H|H]; [exists Movie; exact H|].
      apply in_app_or in H as [H|H]; [exists Series; exact H|exists LiveStream; exact H]. }
    destruct Hc as [cat Hc]. exists cat. rewrite <- Hn. exact (build_node_contents its cat c Hc). }
  split; [|exact Some_case].
  split.
  - intros H it Hit Hg.
    pose proof (proj2 (proj2 (build_node_names its (category (item_category it))) g)
                (ex_intro _ it (conj Hit (conj Hg eq_refl)))) as Hin.
    apply in_map_iff in Hin as (c & Hc & Hin).
    assert (Hall : In c (movies t ++ series t ++ live_streams t)).
    { unfold t. destruct (category (item_category it)); cbn [cat_nodes] in Hin;
        apply in_or_app; [right; apply in_or_app; right|right; apply in_or_app; left|left]; exact Hin. }
    pose proof (find_none _ _ H c Hall) as F. cbv beta in F.
    rewrite Hc, (proj2 (str_eqb_true g g) eq_refl) in F. discriminate.
  - intros Hno. destruct (find_category t g) as [c|] eqn:E; [|reflexivity].
    destruct (Some_case c eq_refl) as (_ & cat & Hne & Hit).
    destruct (items c) as [|x xs] eqn:Ei; [contradiction|].
    assert (Hx : In x (filter (in_node cat g) its)) by (rewrite <- Hit; left; reflexivity).
    apply filter_In in Hx as [Hx Hf]. unfold in_node in Hf. apply andb_prop in Hf as [Hf _].
    apply str_eqb_true in Hf. exfalso. exact (Hno x Hx Hf).
Qed.
End BuildNodes.

(** ** Search *)

Definition title_matches (query : str) (it : M3UItem) : bool :=
  contains_str (to_lowercase query) (to_lowercase (title it)).

Lemma flat_map_filter {A B : Type} (f : A -> list B) (p : B -> bool) (l : list A) :
  flat_map (fun x => filter p (f x)) l = filter p (flat_map f l).
Proof. induction l as [|x l IH]; simpl; [reflexivity|]. rewrite filter_app, IH. reflexivity. Qed.

Lemma search_tree_items (t : CategoryTree) (q : str) :
  search t q = filter (title_matches q) (tree_items t).
Proof.
  unfold search, tree_items, node_items, title_matches.
  rewrite flat_map_filter, !flat_map_app. reflexivity.
Qed.

Lemma lower_idem (c : ascii) : lower (lower c) = lower c.
Proof. destruct c as [[] [] [] [] [] [] [] []]; reflexivity. Qed.

Lemma to_lowercase_idem (l : str) : to_lowercase (to_lowercase l) = to_lowercase l.
Proof. unfold to_lowercase. rewrite map_map. apply map_ext, lower_idem. Qed.

Lemma perm_filter {A : Type} (p : A -> bool) (l l' : list A) :
  Permutation l l' -> Permutation (filter p l) (filter p l').
Proof.
  induction 1; simpl.
  - constructor.
  - destruct (p x); auto.
  - destruct (p x), (p y); auto. constructor.
  - eapply perm_trans; eassumption.
Qed.

(** [search] returns, in tree order, the items of the tree whose title
    contains the query ignoring ASCII case: lowercasing the query does not
    change the result, and the empty query returns every item of the
    tree. *)
Theorem search_matches (t : CategoryTree) (q : str) :
  search t q = filter (title_matches q) (tree_items t) /\
  search t (to_lowercase q) = search t q /\
  search t [] = tree_items t.
Proof.
  split; [apply search_tree_items|]. split.
  - rewrite !search_tree_items. unfold title_matches. rewrite to_lowercase_idem. reflexivity.
  - rewrite search_tree_items. rewrite <- (filter_true (tree_items t)) at 2.
    apply filter_ext. intros it. unfold title_matches, contains_str, find_str. simpl.
    destruct (to_lowercase (title it)); reflexivity.
Qed.

Section SearchBuild.
Variable into_iter : group_map -> group_map.
Hypothesis into_iter_perm : forall m, Permutation (into_iter m) m.

(** For an ASCII query and ASCII titles, searching a built tree finds, up
    to order, exactly the input items whose title contains the query
    ignoring case, whatever the iteration order of the hash maps.  (Outside
    ASCII, [to_lowercase] is Unicode lower-casing, which the byte model does
    not represent.) *)
Theorem search_build (its : list M3UItem) (q : str) :
  forallb is_ascii q = true -> forallb (fun it => forallb is_ascii (title it)) its = true ->
  Permutation (search (build into_iter its) q) (filter (title_matches q) its).
Proof.
  intros _ _. rewrite search_tree_items. apply perm_filter.
  unfold build. pose proof (build_maps_perm its [] [] []) as Hb.
  destruct (build_maps its [] [] []) as [[mv sr] lv]. unfold tree_items. simpl.
  rewrite !node_items_to_nodes.
  eapply perm_trans; [|rewrite <- (app_nil_r its); exact Hb].
  apply Permutation_app; [apply map_items_into_iter, into_iter_perm|].
  apply Permutation_app; apply map_items_into_iter, into_iter_perm.
Qed.
End SearchBuild.

(** ** The items of a node *)

Lemma item_cmp_antisym (prefs : prefs_map) (a b : M3UItem) :
  item_cmp prefs b a = CompOpp (item_cmp prefs a b).
Proof.
  unfold item_cmp. destruct (item_fav prefs a), (item_fav prefs b); try reflexivity;
    apply str_cmp_antisym.
Qed.

Lemma item_cmp_le_trans (prefs : prefs_map) (a b c : M3UItem) :
  item_cmp prefs a b <> Gt -> item_cmp prefs b c <> Gt -> item_cmp prefs a c <> Gt.
Proof.
  unfold item_cmp. destruct (item_fav prefs a), (item_fav prefs b), (item_fav prefs c);
    try congruence; apply str_cmp_le_trans.
Qed.

Lemma sorted_fav_split (prefs : prefs_map) (l : list M3UItem) :
  StronglySorted (fun a b => item_cmp prefs a b <> Gt) l ->
  exists l1 l2, l = l1 ++ l2 /\ Forall (fun it => item_fav prefs it = true) l1 /\
                Forall (fun it => item_fav prefs it = false) l2.
Proof.
  induction l as [|x l IH]; intros Hs; [exists [], []; auto|].
  inversion Hs as [|? ? Hl Hx]; subst.
  destruct (item_fav prefs x) eqn:Fx.
  - destruct (IH Hl) as (l1 & l2 & -> & H1 & H2). exists (x :: l1), l2. auto.
  - exists [], (x :: l). split; [reflexivity|]. split; [constructor|].
    constructor; [exact Fx|]. apply Forall_forall. intros y Hy.
    pose proof (proj1 (Forall_forall _ _) Hx y Hy) as Hxy. cbv beta in Hxy.
    unfold item_cmp in Hxy. rewrite Fx in Hxy.
    destruct (item_fav prefs y); [congruence|reflexivity].
Qed.

(** [get_items] returns the node's items that the preferences do not hide,
    each once, sorted: favourites come first, and within each part the
    lowercased titles ascend; items that compare equal keep their order
    (an item without preferences is visible and not a favourite). *)
Theorem get_items_sorted (node : CategoryNode) (prefs : prefs_map) :
  Permutation (get_items node prefs) (filter (item_visible prefs) (items node)) /\
  StronglySorted (fun a b => item_cmp prefs a b <> Gt) (get_items node prefs) /\
  exists l1 l2, get_items node prefs = l1 ++ l2 /\
    Forall (fun it => item_fav prefs it = true) l1 /\ Forall (fun it => item_fav prefs it = false) l2.
Proof.
  assert (Hs : StronglySorted (fun a b => item_cmp prefs a b <> Gt) (get_items node prefs))
    by exact (sort_by_sorted _ (item_cmp prefs) (item_cmp_antisym prefs) (item_cmp_le_trans prefs) _).
  split; [apply sort_by_perm|]. split; [exact Hs|]. apply sorted_fav_split, Hs.
Qed.

(** ** Series metadata *)

(** An item the categorizer classifies as a series has season and episode
    numbers of at most 99 and a non-empty cleaned title. *)
Theorem categorize_series_bounds (t u : str) :
  category (categorize_item t u) = Series ->
  exists sv e, ci_season (categorize_item t u) = Some sv /\ ci_episode (categorize_item t u) = Some e /\
    sv <= 99 /\ e <= 99 /\ cleaned_title (categorize_item t u) <> [].
Proof.
  unfold categorize_item. destruct (is_live_stream u); [discriminate|].
  destruct (match detect_year t with Some info => _ | None => _ end) as [wt yr].
  destruct (detect_episode wt) as [ep|] eqn:E; [|discriminate]. intros _.
  destruct (detect_episode_props wt ep E) as (H1 & H2 & H3).
  exists (season ep), (episode ep). auto.
Qed.

(** ** Live streams and query strings *)

Lemma rfind_from_app_none (c : ascii) (u v : str) :
  forall i, ~ In c v -> rfind_from i c (u ++ v) = rfind_from i c u.
Proof.
  induction u as [|d u IH]; intros i Hv; simpl; [apply rfind_from_none, Hv|].
  rewrite IH by exact Hv. reflexivity.
Qed.

Lemma rfind_from_lt (c : ascii) (l : str) :
  forall i j, rfind_from i c l = Some j -> j < i + length l.
Proof.
  induction l as [|d l IH]; intros i j H; simpl in H; [discriminate|].
  destruct (rfind_from (S i) c l) as [j'|] eqn:E.
  - injection H as <-. apply IH in E. simpl. lia.
  - destruct (ascii_eqb c d); [injection H as <-; simpl; lia|discriminate].
Qed.

Lemma find_char_absent (c : ascii) (l : str) :
  forall i, ~ In c l -> find_str_from i [c] l = None.
Proof.
  induction l as [|d l IH]; intros i Hn; [reflexivity|]. simpl.
  destruct (ascii_eqb c d) eqn:E.
  - apply ascii_eqb_true in E. subst. exfalso. apply Hn. left. reflexivity.
  - simpl. apply IH. intros H. apply Hn. right. exact H.
Qed.

(** Appending a query string [?q] that holds no slash to a URL that holds
    no question mark does not change whether [is_live_stream] takes it for
    a live stream: the query is cut off before the extension test. *)
Theorem is_live_stream_query (u q : str) :
  ~ In "?"%char u -> ~ In "/"%char q -> is_live_stream (u ++ "?"%char :: q) = is_live_stream u.
Proof.
  intros Hu Hq. unfold is_live_stream, rfind.
  rewrite rfind_from_app_none
    by (intros [H|H]; [discriminate H|exact (Hq H)]).
  destruct (rfind_from 0 "/"%char u) as [j|] eqn:E; [|reflexivity].
  apply rfind_from_lt in E. simpl in E.
  rewrite skipn_app. replace (j + 1 - length u) with 0 by lia. cbn [skipn].
  assert (Hf : ~ In "?"%char (skipn (j + 1) u)) by (intros H; apply Hu, (In_skipn' _ _ _ H)).
  unfold find_char, find_str.
  rewrite (find_char_first _ _ _ 0 Hf), (find_char_absent _ _ 0 Hf). simpl.
  rewrite firstn_length_app. reflexivity.
Qed.

Lemma is_live_stream_query_witness :
  ~ In "?"%char (s "http://x/live/42") /\ ~ In "/"%char (s "token=abc.def") /\
  is_live_stream (s "http://x/live/42" ++ "?"%char :: s "token=abc.def") = is_live_stream (s "http://x/live/42").
Proof.
  assert (H1 : ~ In "?"%char (s "http://x/live/42")) by (simpl; intuition discriminate).
  assert (H2 : ~ In "/"%char (s "token=abc.def")) by (simpl; intuition discriminate).
  split; [exact H1|]. split; [exact H2|]. exact (is_live_stream_query _ _ H1 H2).
Defined.

(** ** Instances *)

Definition action_node : CategoryNode :=
  {| name := s "Action"; items := [sample_item "A" "Action" Movie; sample_item "C" "Action" Movie] |}.

Lemma id_perm : forall m : group_map, Permutation (id m) m.
Proof. intros m. apply Permutation_refl. Qed.

Lemma build_node_items_witness :
  In action_node (cat_nodes (build id sample_items) Movie) /\
  (items action_node <> [] /\ items action_node = filter (in_node Movie (name action_node)) sample_items).
Proof.
  assert (H : In action_node (cat_nodes (build id sample_items) Movie)) by (vm_compute; left; reflexivity).
  split; [exact H|]. exact (build_node_items id id_perm sample_items Movie action_node H).
Defined.

Lemma build_node_names_exact_witness :
  (forall m : group_map, Permutation (id m) m) /\
  (NoDup (map name (cat_nodes (build id sample_items) Series)) /\
   (forall g, In g (map name (cat_nodes (build id sample_items) Series)) <->
      exists it, In it sample_items /\ item_group it = g /\ category (item_category it) = Series)).
Proof. split; [exact id_perm|exact (build_node_names_exact id id_perm sample_items Series)]. Defined.

Lemma find_category_build_witness :
  (forall m : group_map, Permutation (id m) m) /\
  find_category (build id sample_items) (s "Uncategorized") <> None.
Proof.
  split; [exact id_perm|].
  intros H. apply (proj1 (proj1 (find_category_build id id_perm sample_items (s "Uncategorized"))) H
                     (sample_item "B" "" Series)); [right; left; reflexivity|vm_compute; reflexivity].
Defined.

Lemma search_build_witness :
  (forall m : group_map, Permutation (id m) m) /\
  forallb is_ascii (s "a") = true /\
  forallb (fun it => forallb is_ascii (title it)) sample_items = true /\
  Permutation (search (build id sample_items) (s "a"))
              (filter (title_matches (s "a")) sample_items).
Proof.
  assert (Hq : forallb is_ascii (s "a") = true) by (vm_compute; reflexivity).
  assert (Ht : forallb (fun it => forallb is_ascii (title it)) sample_items = true)
    by (vm_compute; reflexivity).
  split; [exact id_perm|]. split; [exact Hq|]. split; [exact Ht|].
  exact (search_build id id_perm sample_items (s "a") Hq Ht).
Defined.

Lemma detect_year_none_iff_witness :
  forallb is_ascii (s "Film 1899") = true /\
  (detect_year (s "Film 1899") = None <-> (forall k, year_at (skipn k (s "Film 1899")) = None)).
Proof.
  assert (H : forallb is_ascii (s "Film 1899") = true) by (vm_compute; reflexivity).
  split; [exact H|exact (detect_year_none_iff _ H)].
Defined.

Lemma categorize_series_bounds_witness :
  category (categorize_item (s "Show S01E02") (s "http://x/show.mkv")) = Series /\
  exists sv e,
    ci_season (categorize_item (s "Show S01E02") (s "http://x/show.mkv")) = Some sv /\
    ci_episode (categorize_item (s "Show S01E02") (s "http://x/show.mkv")) = Some e /\
    sv <= 99 /\ e <= 99 /\ cleaned_title (categorize_item (s "Show S01E02") (s "http://x/show.mkv")) <> [].
Proof.
  assert (H : category (categorize_item (s "Show S01E02") (s "http://x/show.mkv")) = Series)
    by (vm_compute; reflexivity).
  split; [exact H|exact (categorize_series_bounds _ _ H)].
Defined.
